(** * Corestore: a shallow embedding of the store, its trackers and its
    key derivation, with the properties of the specification proved or
    refuted against it.

    The embedded code is the current [Corestore] class together with its
    helpers [StreamTracker], [SessionTracker], [CoreTracker], [deriveSeed],
    [createKeyPair] and [generateNamespace]; the finding-peers counter is
    embedded from the [Corestore] revision in [index.js], the only one that
    has it.  The engine (hypercore), libsodium and the storage backend are
    not part of this repository: they are abstracted by the type classes
    [Sodium] and [Engine] below, and by explicit parameters where the code
    consults them. *)

From Stdlib Require Import Init.Byte.
From Stdlib Require Strings.String.
From stdpp Require Import base list gmap strings.

Local Open Scope list_scope.

(** ** Bytes, names and key pairs *)

(** A Node [Buffer]. *)
Definition bytes := list byte.

#[global] Instance byte_eq_decision : EqDecision byte := Byte.byte_eq_dec.

(** The [name] argument of [deriveSeed]: a string or a buffer. *)
Inductive Name :=
| NameStr (s : string)
| NameBuf (b : bytes).

Record KeyPair := mkKeyPair { publicKey : bytes; secretKey : bytes }.

(** A hypercore manifest: [{ version, signers: [{ publicKey }] }]. *)
Record Manifest := mkManifest { m_version : nat; m_signers : list bytes }.

(** ** The cryptographic primitives the code calls *)

Class Sodium := {
  (** [crypto_generichash(out, msg, key)] with a 32-byte output *)
  generichash : option bytes -> bytes -> bytes;
  (** [crypto_sign_seed_keypair(pk, sk, seed)] *)
  sign_seed_keypair : bytes -> bytes * bytes;
  (** [b4a.from(string)], UTF-8 encoding *)
  utf8 : string -> bytes;
  (** [const [NS] = crypto.namespace('corestore', 1)] *)
  NS : bytes
}.

Section KeyDerivation.
Context `{Sodium}.

(** [crypto_generichash_batch(out, parts, key)]: one hashing state that is
    updated with every part in turn, i.e. the hash of the concatenation. *)
Definition crypto_generichash_batch (parts : list bytes) (key : option bytes) : bytes :=
  generichash key (concat parts).

(** [if (!b4a.isBuffer(name)) name = b4a.from(name)] *)
Definition name_buffer (name : Name) : bytes :=
  match name with
  | NameStr s => utf8 s
  | NameBuf b => b
  end.

Definition generateNamespace (namespace : bytes) (name : Name) : bytes :=
  crypto_generichash_batch [namespace; name_buffer name] None.

Definition deriveSeed (primaryKey namespace : bytes) (name : Name) : bytes :=
  crypto_generichash_batch [NS; namespace; name_buffer name] (Some primaryKey).

Definition createKeyPair (primaryKey namespace : bytes) (name : Name) : KeyPair :=
  let seed := deriveSeed primaryKey namespace name in
  let '(pk, sk) := sign_seed_keypair seed in
  mkKeyPair pk sk.

End KeyDerivation.

(** The part of an opened store that [createKeyPair] reads. *)
Record StoreKeys := mkStoreKeys { st_primaryKey : bytes; st_ns : bytes }.

(** [async createKeyPair (name, ns = this.ns)] on an opened store. *)
Definition Corestore_createKeyPair `{Sodium} (store : StoreKeys) (name : Name)
    (ns : option bytes) : KeyPair :=
  createKeyPair (st_primaryKey store) (default (st_ns store) ns) name.

(** A concrete instance of the primitives, used to run the definitions on
    explicit inputs in witnesses and counterexamples.  It is not a hash;
    the properties proved below hold for every instance. *)
#[local] Instance toy_sodium : Sodium := {|
  generichash k m := m ++ default [] k;
  sign_seed_keypair s := (s, s ++ s);
  utf8 := String.list_byte_of_string;
  NS := String.list_byte_of_string "corestore"
|}.

(** ** Identity resolution ([Corestore._auth]) *)

(** [b4a.toString(discoveryKey, 'hex')] *)
Definition hex_digit (n : N) : Ascii.ascii :=
  Ascii.ascii_of_N (if (n <? 10)%N then 48 + n else 87 + n)%N.

Definition toHex (b : bytes) : string :=
  fold_right (fun x acc =>
      String.String (hex_digit (Byte.to_N x / 16)%N)
        (String.String (hex_digit (Byte.to_N x mod 16)%N) acc))
    String.EmptyString b.

(** What the code asks of hypercore and of its id encoding. *)
Class Engine := {
  (** [Hypercore.key(manifest)] *)
  hypercore_key : Manifest -> bytes;
  (** [crypto.discoveryKey(key)] *)
  discoveryKeyOf : bytes -> bytes;
  (** [ID.decode(id)]; [None] is its throw on an id it cannot decode *)
  id_decode : bytes -> option bytes
}.

(** The options of [get] that [_auth] and [_getCore] read. *)
Record GetOpts := mkGetOpts {
  o_name : option Name;
  o_keyPair : option KeyPair;
  o_manifest : option Manifest;
  o_key : option bytes;
  o_discoveryKey : option bytes;
  o_createIfMissing : option bool
}.

Definition no_opts : GetOpts := mkGetOpts None None None None None None.

(** [if (opts.name)]: the empty string is falsy, a buffer is truthy. *)
Definition name_truthy (n : option Name) : option Name :=
  match n with
  | Some (NameStr String.EmptyString) => None
  | _ => n
  end.

Record AuthResult := mkAuth {
  a_keyPair : option KeyPair;
  a_key : option bytes;
  a_discoveryKey : bytes;
  a_manifest : option Manifest
}.

(** [_auth (discoveryKey, opts)]; [None] is a throw: of [ID.decode] on
    [opts.key] or [opts.discoveryKey], or of
    ['Could not derive discovery from input']. *)
Definition _auth `{Sodium} `{Engine} (primaryKey ns : bytes)
    (discoveryKey : option bytes) (opts : GetOpts) : option AuthResult :=
  let keyPair :=
    match name_truthy (o_name opts) with
    | Some name => Some (createKeyPair primaryKey ns name)
    | None => o_keyPair opts
    end in
  let manifest :=
    match o_manifest opts with
    | Some m => Some m
    | None =>
        match keyPair, discoveryKey with
        | Some kp, None => Some (mkManifest 1 [publicKey kp])
        | _, _ => None
        end
    end in
  (* [if (opts.key) result.key = ID.decode(opts.key)
      else if (result.manifest) result.key = Hypercore.key(result.manifest)] *)
  let decodedKey :=
    match o_key opts with
    | Some k =>
        match id_decode k with
        | Some k' => Some (Some k')
        | None => None
        end
    | None => Some (hypercore_key <$> manifest)
    end in
  match decodedKey with
  | None => None
  | Some key =>
      match discoveryKey with
      | Some dk => Some (mkAuth keyPair key dk manifest)
      | None =>
          match o_discoveryKey opts with
          | Some dk =>
              match id_decode dk with
              | Some dk' => Some (mkAuth keyPair key dk' manifest)
              | None => None
              end
          | None =>
              match key with
              | Some k => Some (mkAuth keyPair key (discoveryKeyOf k) manifest)
              | None => None
              end
          end
      end
  end.

(** ** The core registry ([CoreTracker.map]) and [_getCore] *)

(** A hypercore core as the store sees it: the options it was created
    with and the replicator state the store reads and changes. *)
Record Core := mkCore {
  core_oid : nat;                        (** object identity *)
  core_discoveryKey : bytes;
  core_key : option bytes;
  core_keyPair : option KeyPair;
  core_manifest : option Manifest;
  core_createIfMissing : option bool;
  core_alias : option (Name * bytes);
  core_opened : bool;
  core_closing : bool;
  core_downloading : bool;               (** [core.replicator.downloading] *)
  core_attached : list nat               (** muxers it is attached to *)
}.

Record Registry := mkRegistry {
  cores : gmap string Core;
  next_oid : nat
}.

(** [Hypercore.createCore(this.storage, {...})] *)
Definition createCore (oid : nat) (auth : AuthResult) (opts : GetOpts)
    (ns : bytes) : Core :=
  mkCore oid (a_discoveryKey auth) (a_key auth) (a_keyPair auth)
    (a_manifest auth) (o_createIfMissing opts)
    (match name_truthy (o_name opts) with Some n => Some (n, ns) | None => None end)
    false false false [].

Definition _getCore `{Sodium} `{Engine} (primaryKey ns : bytes)
    (discoveryKey : option bytes) (opts : GetOpts) (r : Registry)
    : option (Core * Registry) :=
  match _auth primaryKey ns discoveryKey opts with
  | None => None
  | Some auth =>
      let id := toHex (a_discoveryKey auth) in
      match cores r !! id with
      | Some existing => Some (existing, r)
      | None =>
          let core := createCore (next_oid r) auth opts ns in
          Some (core, mkRegistry (<[id := core]> (cores r)) (S (next_oid r)))
      end
  end.

(** The store fields [get] reads, with [storage.getAlias]. *)
Record StoreCtx := mkStoreCtx {
  sc_primaryKey : bytes;
  sc_ns : bytes;
  sc_closing : bool;
  sc_getAlias : Name -> bytes -> option bytes
}.

(** [get (opts)]: the core the returned session wraps.  A [name] goes
    through [_preload], which first asks storage for the alias. *)
Definition Corestore_get `{Sodium} `{Engine} (ctx : StoreCtx) (opts : GetOpts)
    (r : Registry) : option (Core * Registry) :=
  if sc_closing ctx then None
  else
    match name_truthy (o_name opts) with
    | Some name =>
        _getCore (sc_primaryKey ctx) (sc_ns ctx) (sc_getAlias ctx name (sc_ns ctx)) opts r
    | None => _getCore (sc_primaryKey ctx) (sc_ns ctx) None opts r
    end.

(** The discovery key a [get] resolves to. *)
Definition get_identity `{Sodium} `{Engine} (ctx : StoreCtx) (opts : GetOpts)
    : option bytes :=
  let dk := match name_truthy (o_name opts) with
            | Some name => sc_getAlias ctx name (sc_ns ctx)
            | None => None
            end in
  a_discoveryKey <$> _auth (sc_primaryKey ctx) (sc_ns ctx) dk opts.

(** The resolver as the specification words it: the first of [name],
    [keyPair], [manifest], [key], [discoveryKey] that is present decides
    every field.  Compared with [_auth] in claim C4. *)
Definition auth_by_precedence `{Sodium} `{Engine} (primaryKey ns : bytes)
    (opts : GetOpts) : option AuthResult :=
  let from_keypair kp :=
    let m := mkManifest 1 [publicKey kp] in
    let k := hypercore_key m in
    Some (mkAuth (Some kp) (Some k) (discoveryKeyOf k) (Some m)) in
  match name_truthy (o_name opts), o_keyPair opts, o_manifest opts,
        o_key opts, o_discoveryKey opts with
  | Some name, _, _, _, _ => from_keypair (createKeyPair primaryKey ns name)
  | None, Some kp, _, _, _ => from_keypair kp
  | None, None, Some m, _, _ =>
      let k := hypercore_key m in
      Some (mkAuth None (Some k) (discoveryKeyOf k) (Some m))
  | None, None, None, Some k, _ =>
      k' ← id_decode k; Some (mkAuth None (Some k') (discoveryKeyOf k') None)
  | None, None, None, None, Some dk => dk' ← id_decode dk; Some (mkAuth None None dk' None)
  | None, None, None, None, None => None
  end.

#[local] Instance toy_engine : Engine := {|
  hypercore_key m := concat (m_signers m);
  discoveryKeyOf k := k ++ [x00];
  id_decode b := match b with [] => None | _ => Some b end
|}.

(** ** Opening the root store ([_getOrSetSeed] and [_open]) *)

Inductive OpenError := ErrAnotherCorestore.

(** [_getOrSetSeed]: the persisted seed, or else [primaryKey || random]
    written to the seed slot ([storage.setSeed] resolves to what it stored).
    Returns the seed and the slot afterwards. *)
Definition _getOrSetSeed (slot : option bytes) (primaryKey : option bytes)
    (random : bytes) : bytes * option bytes :=
  match slot with
  | Some seed => (seed, slot)
  | None => let s := default random primaryKey in (s, Some s)
  end.

(** [_open] of a root store: the store's [primaryKey] afterwards, or the
    error ['Another corestore is stored here'], and the seed slot. *)
Definition Corestore_open_root (slot : option bytes) (primaryKey : option bytes)
    (random : bytes) : (OpenError + bytes) * option bytes :=
  let '(seed, slot') := _getOrSetSeed slot primaryKey random in
  match primaryKey with
  | None => (inr seed, slot')
  | Some pk =>
      if decide (seed = pk) then (inr pk, slot')
      else (inl ErrAnotherCorestore, slot')
  end.

(** ** Closing ([_close]) *)

Inductive CloseEvent :=
| EvCloseSession (session : nat)      (** [sess.close()] *)
| EvStoreClosed (store : nat)         (** a child store finished closing *)
| EvCloseCore (oid : nat)             (** [core.close()] *)
| EvCloseStorage.                     (** [this.storage.close()] *)



(** [core.onidle = () => { core.destroy(); this.cores.delete(id, core) }],
    the hook the engine fires when a core becomes idle: the only place
    that removes a registry entry. *)
Definition core_onidle (id : string) (reg : gmap string Core) : gmap string Core :=
  delete id reg.


(** ** Replication: the stream tracker *)

(** A JavaScript array assignment [a[i] = x] on a dense array.  [None]
    stands for an assignment that would leave dense arrays (a hole, or a
    negative index that sets a property); the proofs show it is not
    reached where it matters. *)
Definition array_set {A} (l : list A) (i : Z) (x : A) : option (list A) :=
  if (0 <=? i)%Z && (i <? Z.of_nat (length l))%Z then Some (<[Z.to_nat i := x]> l)
  else if (i =? Z.of_nat (length l))%Z then Some (l ++ [x])
  else None.

(** [a.pop()]: the array without its last element, and that element. *)
Definition js_pop {A} (l : list A) : option (list A * A) :=
  match rev l with
  | [] => None
  | x :: r => Some (rev r, x)
  end.

(** A record [{ index, stream, isExternal }]; [rec_muxer] is
    [record.stream.noiseStream.userData]. *)
Record StreamRecord := mkRecord {
  rec_index : Z;
  rec_muxer : nat;
  rec_external : bool
}.

(** The tracker's [records] array holds references to record objects,
    kept in [heap]: [remove] mutates the record it moves. *)
Record StreamTracker := mkTracker {
  records : list nat;
  heap : gmap nat StreamRecord;
  next_ref : nat
}.

Definition empty_tracker : StreamTracker := mkTracker [] ∅ 0.

(** [add (stream, isExternal)]: returns the new record. *)
Definition st_add (muxer : nat) (isExternal : bool) (t : StreamTracker)
    : nat * StreamTracker :=
  let ref := next_ref t in
  (ref, mkTracker (records t ++ [ref])
                  (<[ref := mkRecord 0 muxer isExternal]> (heap t)) (S ref)).

(** [remove (record)]; [None] is a thrown [TypeError]. *)
Definition st_remove (record : nat) (t : StreamTracker) : option StreamTracker :=
  match js_pop (records t) with
  | None => None
  | Some (rest, popped) =>
      if Nat.eqb popped record then Some (mkTracker rest (heap t) (next_ref t))
      else
        match heap t !! record, heap t !! popped with
        | Some r, Some p =>
            let idx := rec_index r in
            let heap' := <[popped := mkRecord idx (rec_muxer p) (rec_external p)]> (heap t) in
            match array_set rest idx popped with
            | Some rest' => Some (mkTracker rest' heap' (next_ref t))
            | None => None
            end
        | _, _ => None
        end
  end.

(** The muxers of the tracked streams, in array order. *)
Definition tracked_muxers (t : StreamTracker) : list nat :=
  omap (fun ref => rec_muxer <$> heap t !! ref) (records t).

Definition attach (c : Core) (muxer : nat) : Core :=
  mkCore (core_oid c) (core_discoveryKey c) (core_key c) (core_keyPair c)
    (core_manifest c) (core_createIfMissing c) (core_alias c)
    (core_opened c) (core_closing c) (core_downloading c)
    (core_attached c ++ [muxer]).

Definition attached (c : Core) (muxer : nat) : bool :=
  bool_decide (muxer ∈ core_attached c).

(** [core.ready()] resolving: the core is opened. *)
Definition core_ready (c : Core) : Core :=
  mkCore (core_oid c) (core_discoveryKey c) (core_key c) (core_keyPair c)
    (core_manifest c) (core_createIfMissing c) (core_alias c)
    true (core_closing c) (core_downloading c) (core_attached c).

(** [attachAll (core)] *)
Definition attachAll (t : StreamTracker) (core : Core) : Core :=
  fold_left (fun c muxer => if attached c muxer then c else attach c muxer)
    (tracked_muxers t) core.

(** ** Replication: [replicate], [ondownloading] and [_attachMaybe] *)

(** The registry with the core at [id] replaced (a mutation of the core
    object the registry holds). *)
Definition set_core (id : string) (c : Core) (r : Registry) : Registry :=
  mkRegistry (<[id := c]> (cores r)) (next_oid r).

(** One turn of the initial burst of [replicate]:
    [if (!core.replicator.downloading || core.replicator.attached(muxer) ||
    !core.opened) continue; core.replicator.attachTo(muxer)] *)
Definition burst_core (muxer : nat) (c : Core) : Core :=
  if negb (core_downloading c) || attached c muxer || negb (core_opened c) then c
  else attach c muxer.

(** [replicate (isInitiator)] for a stream whose muxer is [muxer]: the
    initial burst over the registry, then [streamTracker.add].  [None] is
    the throw of [_maybeClosed]. *)
Definition Corestore_replicate (closing : bool) (muxer : nat) (isExternal : bool)
    (r : Registry) (t : StreamTracker) : option (Registry * StreamTracker) :=
  if closing then None
  else
    let r' := if bool_decide (0 < size (cores r))
              then mkRegistry (burst_core muxer <$> cores r) (next_oid r)
              else r in
    Some (r', snd (st_add muxer isExternal t)).

(** [core.replicator.ondownloading = () => this.streamTracker.attachAll(core)]
    for the core registered under [id]. *)
Definition ondownloading (id : string) (t : StreamTracker) (r : Registry) : Registry :=
  match cores r !! id with
  | Some c => set_core id (attachAll t c) r
  | None => r
  end.

(** The engine turning [core.replicator.downloading] on, which calls
    [ondownloading]. *)
Definition set_downloading (id : string) (t : StreamTracker) (r : Registry) : Registry :=
  match cores r !! id with
  | Some c =>
      ondownloading id t
        (set_core id (mkCore (core_oid c) (core_discoveryKey c) (core_key c)
           (core_keyPair c) (core_manifest c) (core_createIfMissing c)
           (core_alias c) (core_opened c) (core_closing c) true
           (core_attached c)) r)
  | None => r
  end.

(** [_attachMaybe (muxer, discoveryKey)]; [has] is [storage.has]. *)
Definition _attachMaybe `{Sodium} `{Engine} (primaryKey ns : bytes)
    (has : bytes -> bool) (muxer : nat) (discoveryKey : bytes) (r : Registry)
    : Registry :=
  let id := toHex discoveryKey in
  if bool_decide (cores r !! id = None) && negb (has discoveryKey) then r
  else
    match _getCore primaryKey ns (Some discoveryKey)
            (mkGetOpts None None None None None (Some false)) r with
    | None => r
    | Some (core, r1) =>
        let core1 := if core_opened core then core else core_ready core in
        let core2 := if attached core1 muxer then core1 else attach core1 muxer in
        set_core id core2 r1
    end.

(** The [ondiscoverykey] callback installed by [replicate]. *)
Definition ondiscoverykey `{Sodium} `{Engine} (closing : bool) (primaryKey ns : bytes)
    (has : bytes -> bool) (muxer : nat) (discoveryKey : bytes) (r : Registry)
    : Registry :=
  if closing then r else _attachMaybe primaryKey ns has muxer discoveryKey r.

(** ** Finding peers ([findingPeers], [_incFindingPeers], [_decFindingPeers]) *)

Inductive PeerEvent :=
| Acquire (session : nat)    (** [core.findingPeers()] *)
| Release (session : nat).   (** calling the handle it returned *)

Record FPState := mkFP {
  fp_count : Z;                 (** [_findingPeersCount] *)
  fp_tokens : list nat;         (** [_findingPeers]: one per session *)
  fp_sessions : list nat;       (** [_sessions] *)
  fp_done : gmap nat bool;      (** the [done] flag of every handle *)
  fp_next : nat;
  fp_log : list PeerEvent
}.

Definition _incFindingPeers (s : FPState) : FPState :=
  let count := (fp_count s + 1)%Z in
  if negb (count =? 1)%Z
  then mkFP count (fp_tokens s) (fp_sessions s) (fp_done s) (fp_next s) (fp_log s)
  else mkFP count (fp_tokens s ++ fp_sessions s) (fp_sessions s) (fp_done s)
         (fp_next s) (fp_log s ++ map Acquire (fp_sessions s)).

Definition _decFindingPeers (s : FPState) : FPState :=
  let count := (fp_count s - 1)%Z in
  if negb (count =? 0)%Z
  then mkFP count (fp_tokens s) (fp_sessions s) (fp_done s) (fp_next s) (fp_log s)
  else (* [while (length > 0) this._findingPeers.pop()()] *)
    mkFP count [] (fp_sessions s) (fp_done s) (fp_next s)
      (fp_log s ++ map Release (rev (fp_tokens s))).

(** [findingPeers ()]: the new handle and the state. *)
Definition findingPeers (s : FPState) : nat * FPState :=
  let h := fp_next s in
  let s1 := mkFP (fp_count s) (fp_tokens s) (fp_sessions s)
              (<[h := false]> (fp_done s)) (S h) (fp_log s) in
  (h, _incFindingPeers s1).

(** Calling the handle [h]: [if (done) return; done = true; this._decFindingPeers()] *)
Definition release (h : nat) (s : FPState) : FPState :=
  match fp_done s !! h with
  | Some false =>
      _decFindingPeers (mkFP (fp_count s) (fp_tokens s) (fp_sessions s)
                          (<[h := true]> (fp_done s)) (fp_next s) (fp_log s))
  | _ => s
  end.

(** ** Watchers ([CoreTracker.watch/unwatch], [Corestore.watch/unwatch]) *)

Definition upd {A} (f : nat -> A) (k : nat) (v : A) : nat -> A :=
  fun k' => if Nat.eqb k' k then v else f k'.

Record WatchState := mkWS {
  watching : list nat;                  (** [cores.watching] *)
  watchIndex : nat -> Z;                (** [store.watchIndex] *)
  watchers : nat -> option (list nat)   (** [store.watchers], a [Set] *)
}.

Definition CoreTracker_watch (store : nat) (s : WatchState) : WatchState :=
  if negb (watchIndex s store =? -1)%Z then s
  else mkWS (watching s ++ [store])
            (upd (watchIndex s) store (Z.of_nat (length (watching s))))
            (watchers s).

(** [None] is a thrown [TypeError]. *)
Definition CoreTracker_unwatch (store : nat) (s : WatchState) : option WatchState :=
  if (watchIndex s store =? -1)%Z then Some s
  else
    match js_pop (watching s) with
    | None => None
    | Some (rest, head) =>
        if Nat.eqb head store
        then Some (mkWS rest (upd (watchIndex s) store (-1)%Z) (watchers s))
        else
          let i := watchIndex s store in
          match array_set rest i head with
          | None => None
          | Some rest' =>
              Some (mkWS rest' (upd (upd (watchIndex s) head i) store (-1)%Z) (watchers s))
          end
    end.

(** [Set.prototype.add] and [Set.prototype.delete] *)
Definition set_add (fn : nat) (l : list nat) : list nat :=
  if bool_decide (fn ∈ l) then l else l ++ [fn].

Definition set_delete (fn : nat) (l : list nat) : list nat :=
  filter (fun g => g ≠ fn) l.

Definition Corestore_watch (store fn : nat) (s : WatchState) : WatchState :=
  match watchers s store with
  | None =>
      let s1 := CoreTracker_watch store
                  (mkWS (watching s) (watchIndex s) (upd (watchers s) store (Some []))) in
      mkWS (watching s1) (watchIndex s1) (upd (watchers s1) store (Some [fn]))
  | Some w => mkWS (watching s) (watchIndex s) (upd (watchers s) store (Some (set_add fn w)))
  end.

Definition Corestore_unwatch (store fn : nat) (s : WatchState) : option WatchState :=
  match watchers s store with
  | None => Some s
  | Some w =>
      let w' := set_delete fn w in
      if bool_decide (length w' = 0)
      then CoreTracker_unwatch store (mkWS (watching s) (watchIndex s) (upd (watchers s) store None))
      else Some (mkWS (watching s) (watchIndex s) (upd (watchers s) store (Some w')))
  end.

(** ** Sessions of a store ([SessionTracker] and [Corestore._ongc]) *)

(** [SessionTracker.map]: a core id to the array of the store's sessions
    on that core (the array is shared with the sessions). *)
Definition SessionMap := gmap string (list nat).

(** [get (id)]: the array, created empty when missing, and the map after. *)
Definition SessionTracker_get (id : string) (m : SessionMap) : list nat * SessionMap :=
  match m !! id with
  | Some existing => (existing, m)
  | None => ([], <[id := []]> m)
  end.

Definition SessionTracker_gc (id : string) (m : SessionMap) : SessionMap :=
  delete id m.

(** [_ongc (session)]: [sessions] is [session.sessions], [id] is [session.id]. *)
Definition Corestore_ongc (id : string) (sessions : list nat) (m : SessionMap) : SessionMap :=
  match sessions with
  | [] => SessionTracker_gc id m
  | _ => m
  end.

(** ** More of the trackers: [StreamTracker.destroy], [CoreTracker.set] *)

(** [destroy ()]: the records whose stream gets [stream.destroy()], in
    call order; [None] is the [TypeError] of a record missing from the heap. *)
Definition StreamTracker_destroy (t : StreamTracker) : option (list nat) :=
  fold_left (fun acc ref =>
      acc ≫= fun destroyed =>
      r ← heap t !! ref;
      Some (if rec_external r then destroyed else destroyed ++ [ref]))
    (rev (records t)) (Some []).

(** [_emit (core)]: the callbacks called, in order; [None] is the
    [TypeError] of iterating a [watchers] that is [null]. *)
Definition CoreTracker_emit (s : WatchState) : option (list nat) :=
  fold_left (fun acc store =>
      acc ≫= fun calls => (fun w => calls ++ w) <$> watchers s store)
    (rev (watching s)) (Some []).

(** [set (id, core)]: the map after, and the callbacks called. *)
Definition CoreTracker_set (id : string) (core : Core) (m : gmap string Core)
    (s : WatchState) : option (gmap string Core * list nat) :=
  let m' := <[id := core]> m in
  if bool_decide (0 < length (watching s))
  then (fun calls => (m', calls)) <$> CoreTracker_emit s
  else Some (m', []).

(** [this.cores.unwatch(this)] in [_close]: [watchers] is left as it is. *)
Definition close_unwatch (store : nat) (s : WatchState) : option WatchState :=
  match watchers s store with
  | Some _ => CoreTracker_unwatch store s
  | None => Some s
  end.

(** [_hasCore (discoveryKey)] *)
Definition _hasCore (discoveryKey : bytes) (r : Registry) : bool :=
  bool_decide (is_Some (cores r !! toHex discoveryKey)).

(** The hook [core.onidle] acting on the registry. *)
Definition registry_onidle (id : string) (r : Registry) : Registry :=
  mkRegistry (core_onidle id (cores r)) (next_oid r).

(** ** Stores and sessions of stores ([session], [namespace], [_maybeClosed]) *)

(** [const DEFAULT_NAMESPACE = b4a.alloc(32)] *)
Definition DEFAULT_NAMESPACE : bytes := repeat x00 32.

(** The fields of a store object that [session] and [namespace] read and set. *)
Record StoreNode := mkStoreNode {
  sn_root : option nat;     (** [this.root] *)
  sn_ns : bytes;            (** [this.ns] *)
  sn_closing : bool         (** [this.closing] *)
}.

(** The store objects, and for each root store its [this.corestores] set
    (a child store's [this.corestores] is its root's), its members in
    insertion order. *)
Record Stores := mkStores {
  stores : gmap nat StoreNode;
  next_store : nat;
  corestores : gmap nat (list nat)
}.

(** [_maybeClosed ()]: [true] when it throws ['Corestore is closed']. *)
Definition _maybeClosed (self : nat) (w : Stores) : bool :=
  match stores w !! self with
  | Some me =>
      sn_closing me ||
      match sn_root me with
      | Some root => default false (sn_closing <$> stores w !! root)
      | None => false
      end
  | None => false
  end.

(** [session (opts)]: [new Corestore(null, { ...opts, root })] with
    [root = this.root || this]; the constructor sets
    [this.ns = opts.namespace || DEFAULT_NAMESPACE] and, having a root,
    runs [this.corestores.add(this)] on the root's set (the new object is
    not in it yet, so it goes last).  [None] is a throw. *)
Definition Corestore_session (self : nat) (namespace : option bytes) (w : Stores)
    : option (nat * Stores) :=
  me ← stores w !! self;
  if _maybeClosed self w then None
  else
    let root := default self (sn_root me) in
    let id := next_store w in
    Some (id, mkStores (<[id := mkStoreNode (Some root)
                                 (default DEFAULT_NAMESPACE namespace) false]> (stores w))
                       (S id)
                       (<[root := default [] (corestores w !! root) ++ [id]]> (corestores w))).

(** [namespace (name, opts)] *)
Definition Corestore_namespace `{Sodium} (self : nat) (name : Name) (w : Stores)
    : option (nat * Stores) :=
  me ← stores w !! self;
  Corestore_session self (Some (generateNamespace (sn_ns me) name)) w.

(** ** Invariants read off the code *)

(** Every registry entry is stored under the hex of its core's discovery
    key, and object ids are below the counter. *)
Definition reg_wf (r : Registry) : Prop :=
  ∀ id c, cores r !! id = Some c ->
    id = toHex (core_discoveryKey c) /\ core_oid c < next_oid r.

(** No core is attached twice to one muxer. *)
Definition attach_nodup (r : Registry) : Prop :=
  ∀ id c, cores r !! id = Some c -> NoDup (core_attached c).

(** Every tracked record is in the heap, with [index] 0, and below the
    reference counter. *)
Definition tracker_wf (t : StreamTracker) : Prop :=
  ∀ ref, ref ∈ records t ->
    ref < next_ref t /\ ∃ m e, heap t !! ref = Some (mkRecord 0 m e).

(** Every registered store has a [watchers] set. *)
Definition emit_wf (s : WatchState) : Prop :=
  ∀ x, x ∈ watching s -> is_Some (watchers s x).

(** Store ids are below the counter, and a store's root is a root store. *)
Definition stores_wf (w : Stores) : Prop :=
  ∀ id me, stores w !! id = Some me ->
    id < next_store w /\
    ∀ root, sn_root me = Some root -> ∃ r, stores w !! root = Some r /\ sn_root r = None.

(** A decoder of hex strings; not in the source, it shows that [toHex]
    loses nothing. *)
Definition unhex_digit (a : Ascii.ascii) : N :=
  let k := Ascii.N_of_ascii a in
  if (k <? 58)%N then (k - 48)%N else (k - 87)%N.

Fixpoint fromHex (s : string) : option bytes :=
  match s with
  | String.String a (String.String b rest) =>
      x ← Byte.of_N (16 * unhex_digit a + unhex_digit b)%N;
      xs ← fromHex rest;
      Some (x :: xs)
  | String.String _ String.EmptyString => None
  | String.EmptyString => Some []
  end.

(** * Properties *)

(** ** Runs on explicit inputs *)

Example toHex_run : toHex [x0a; xff] = "0aff"%string.
Proof. reflexivity. Qed.

Example deriveSeed_run :
  deriveSeed [x01] [x02] (NameBuf [x03])
  = String.list_byte_of_string "corestore" ++ [x02; x03; x01].
Proof. reflexivity. Qed.

Example auth_key_only_run :
  _auth [x01] [x00] None (mkGetOpts None None None (Some [x05]) None None)
  = Some (mkAuth None (Some [x05]) [x05; x00] None).
Proof. reflexivity. Qed.

(** ** Key derivation *)

Lemma concat_three (a b c : bytes) : concat [a; b; c] = a ++ b ++ c.
Proof. simpl. by rewrite app_nil_r. Qed.

(** C1: the seed is the keyed generic hash of [NS || ns || name] under the
    primary key, and two stores with the same primary key derive the same
    seed and the same key pair for the same namespace and name. *)
Theorem deriveSeed_keyed_hash `{Sodium} (store1 store2 : StoreKeys) :
  st_primaryKey store1 = st_primaryKey store2 ->
  (∀ (pk ns : bytes) (name : Name),
      deriveSeed pk ns name = generichash (Some pk) (NS ++ ns ++ name_buffer name)) /\
  (∀ (ns : bytes) (name : Name),
      deriveSeed (st_primaryKey store1) ns name = deriveSeed (st_primaryKey store2) ns name /\
      Corestore_createKeyPair store1 name (Some ns) = Corestore_createKeyPair store2 name (Some ns)).
Proof.
  intros Hpk. split.
  - intros pk ns name. unfold deriveSeed, crypto_generichash_batch.
    by rewrite concat_three.
  - intros ns name. unfold Corestore_createKeyPair. simpl. by rewrite Hpk.
Qed.

Lemma deriveSeed_keyed_hash_witness :
  st_primaryKey (mkStoreKeys [x01] [x00]) = st_primaryKey (mkStoreKeys [x01] [x02]) /\
  Corestore_createKeyPair (mkStoreKeys [x01] [x00]) (NameStr "a") (Some [x09])
  = Corestore_createKeyPair (mkStoreKeys [x01] [x02]) (NameStr "a") (Some [x09]).
Proof.
  split; [reflexivity |].
  exact (proj2 (proj2 (deriveSeed_keyed_hash (mkStoreKeys [x01] [x00])
                         (mkStoreKeys [x01] [x02]) eq_refl) [x09] (NameStr "a"))).
Defined.

(** ** The registry *)

Lemma Corestore_get_lookup `{Sodium} `{Engine} (ctx : StoreCtx) (o : GetOpts)
    (r r' : Registry) (c : Core) :
  Corestore_get ctx o r = Some (c, r') ->
  ∃ d, get_identity ctx o = Some d /\ cores r' !! toHex d = Some c /\
       ((cores r !! toHex d = Some c /\ r' = r) \/
        (cores r !! toHex d = None /\ cores r' = <[toHex d := c]> (cores r))).
Proof.
  unfold Corestore_get, get_identity, _getCore.
  destruct (sc_closing ctx); [discriminate |].
  destruct (name_truthy (o_name o)) as [n |];
    destruct (_auth _ _ _ _) as [a |]; try discriminate; simpl;
    destruct (cores r !! toHex (a_discoveryKey a)) as [e |] eqn:Hl;
    intros Hr; injection Hr as <- <-; exists (a_discoveryKey a);
    (split; [done |]); simpl; try rewrite lookup_insert_eq; eauto.
Qed.

(** C2: a [get] adds at most one registry entry; a [get] whose discovery
    key is already registered returns that core and leaves the registry
    as it is; and a later [get] resolving to the same discovery key returns
    the same core object, with the same key. *)
Theorem get_shares_core `{Sodium} `{Engine} (ctx : StoreCtx) (o1 o2 : GetOpts)
    (r r1 : Registry) (c1 : Core) :
  Corestore_get ctx o1 r = Some (c1, r1) ->
  size (cores r1) <= S (size (cores r)) /\
  (∀ d c, get_identity ctx o1 = Some d -> cores r !! toHex d = Some c ->
          c1 = c /\ r1 = r) /\
  (∀ c2 r2, get_identity ctx o2 = get_identity ctx o1 ->
            Corestore_get ctx o2 r1 = Some (c2, r2) ->
            c2 = c1 /\ r2 = r1 /\ core_key c2 = core_key c1).
Proof.
  intros Hg. destruct (Corestore_get_lookup _ _ _ _ _ Hg)
    as (d & Hid & Hin & [[Hold ->] | [Hnone Hnew]]).
  - split; [lia |]. split.
    + intros d' c Hd' Hc. rewrite Hid in Hd'. injection Hd' as <-.
      rewrite Hold in Hc. by injection Hc.
    + intros c2 r2 Hsame Hg2.
      destruct (Corestore_get_lookup _ _ _ _ _ Hg2)
        as (d2 & Hid2 & Hin2 & [[Hold2 ->] | [Hnone2 _]]).
      * rewrite Hsame, Hid in Hid2. injection Hid2 as <-.
        rewrite Hin in Hold2. injection Hold2 as ->. done.
      * rewrite Hsame, Hid in Hid2. injection Hid2 as <-. congruence.
  - split; [rewrite Hnew, map_size_insert_None; [lia | done] |]. split.
    + intros d' c Hd' Hc. rewrite Hid in Hd'. injection Hd' as <-. congruence.
    + intros c2 r2 Hsame Hg2.
      destruct (Corestore_get_lookup _ _ _ _ _ Hg2)
        as (d2 & Hid2 & Hin2 & [[Hold2 ->] | [Hnone2 _]]).
      * rewrite Hsame, Hid in Hid2. injection Hid2 as <-.
        rewrite Hin in Hold2. injection Hold2 as ->. done.
      * rewrite Hsame, Hid in Hid2. injection Hid2 as <-. congruence.
Qed.

Lemma get_shares_core_witness :
  let ctx := mkStoreCtx [x01] [x00] false (fun _ _ => None) in
  let o := mkGetOpts None None None (Some [x05]) None None in
  let c := mkCore 0 [x05; x00] (Some [x05]) None None None None false false false [] in
  let r1 := mkRegistry (<["0500"%string := c]> ∅) 1 in
  Corestore_get ctx o (mkRegistry ∅ 0) = Some (c, r1) /\
  Corestore_get ctx o r1 = Some (c, r1) /\
  size (cores r1) <= 1.
Proof.
  intros ctx o c r1.
  assert (Hg : Corestore_get ctx o (mkRegistry ∅ 0) = Some (c, r1)) by reflexivity.
  split; [exact Hg |]. split.
  - reflexivity.
  - exact (proj1 (get_shares_core ctx o o (mkRegistry ∅ 0) r1 c Hg)).
Defined.

(** ** Opening the root store *)

(** C3: on storage that holds a seed, a supplied primary key that differs
    from it makes [open()] fail with the conflicting-seed error, and no
    supplied primary key adopts the stored seed; the slot is unchanged. *)
Theorem open_conflicting_seed (seed random : bytes) (primaryKey : option bytes) :
  (∀ pk, primaryKey = Some pk -> pk ≠ seed ->
     Corestore_open_root (Some seed) primaryKey random
     = (inl ErrAnotherCorestore, Some seed)) /\
  (primaryKey = None ->
     Corestore_open_root (Some seed) primaryKey random = (inr seed, Some seed)).
Proof.
  split.
  - intros pk -> Hne. unfold Corestore_open_root. simpl.
    case_decide as Heq; [congruence | done].
  - intros ->. reflexivity.
Qed.

Lemma open_conflicting_seed_witness :
  Corestore_open_root (Some [x01]) (Some [x02]) [x03] = (inl ErrAnotherCorestore, Some [x01]) /\
  Corestore_open_root (Some [x01]) None [x03] = (inr [x01], Some [x01]).
Proof.
  split.
  - apply (proj1 (open_conflicting_seed [x01] [x03] (Some [x02])) [x02]);
      [reflexivity | discriminate].
  - apply (proj2 (open_conflicting_seed [x01] [x03] None)). reflexivity.
Defined.

(** ** Identity resolution *)

(** C4, as stated, fails: with a [name] and a [manifest] the resolver keeps
    the caller's manifest (and the key and discovery key it determines)
    instead of the single-signer manifest over the derived key pair. *)
Lemma auth_precedence_counterexample :
  let o := mkGetOpts (Some (NameStr "a")) None (Some (mkManifest 1 [[x0a]; [x0b]]))
             None None None in
  _auth [x01] [x00] None o ≠ auth_by_precedence [x01] [x00] o /\
  (a_manifest <$> _auth [x01] [x00] None o)
  ≠ Some (Some (mkManifest 1 [publicKey (createKeyPair [x01] [x00] (NameStr "a"))])).
Proof. split; vm_compute; congruence. Qed.

(** When [_auth] throws: [ID.decode] fails on [opts.key] (whether or not a
    discovery key is stored), or, with no stored discovery key, on
    [opts.discoveryKey], or nothing identifies the core. *)
Lemma auth_None_iff `{Sodium} `{Engine} (pk ns : bytes) (dk : option bytes)
    (opts : GetOpts) :
  _auth pk ns dk opts = None <->
  (∃ k, o_key opts = Some k /\ id_decode k = None) \/
  (dk = None /\ ∃ d, o_discoveryKey opts = Some d /\ id_decode d = None) \/
  (dk = None /\ o_discoveryKey opts = None /\ o_key opts = None /\
   o_manifest opts = None /\ name_truthy (o_name opts) = None /\ o_keyPair opts = None).
Proof.
  destruct opts as [n kp m k d cim]. unfold _auth; cbn [o_name o_keyPair o_manifest o_key o_discoveryKey].
  destruct (name_truthy n) as [nm |]; destruct kp as [kp |]; destruct m as [m |];
    destruct k as [k |]; try destruct (id_decode k) as [k' |] eqn:Hk;
    destruct dk as [dk |]; destruct d as [d |];
    try destruct (id_decode d) as [d' |] eqn:Hd;
    simpl; split; intros; naive_solver.
Qed.

(** C4, amended: each field is resolved on its own.  The key pair is the
    one derived from a (truthy) name, otherwise [opts.keyPair]; the
    manifest is [opts.manifest], otherwise the single-signer manifest over
    the key pair when there is one and no stored discovery key; the key is
    [ID.decode(opts.key)], otherwise the key of the manifest; the discovery
    key is the stored one, otherwise [ID.decode(opts.discoveryKey)],
    otherwise the discovery key of the key.  The resolver throws exactly
    when [ID.decode] fails on [opts.key] (even with a stored discovery key)
    or, with none stored, on [opts.discoveryKey], or when nothing identifies
    the core.  So a name alone (no stored alias) or a key pair alone yields
    that key pair, the single-signer manifest over it and the key and
    discovery key it determines; a key alone leaves the manifest unset; and
    none of name, key pair, manifest, key or discovery key throws. *)
Theorem auth_fields `{Sodium} `{Engine} (pk ns : bytes) :
  (∀ dk opts a, _auth pk ns dk opts = Some a ->
     a_keyPair a = match name_truthy (o_name opts) with
                   | Some name => Some (createKeyPair pk ns name)
                   | None => o_keyPair opts
                   end /\
     a_manifest a = match o_manifest opts with
                    | Some m => Some m
                    | None =>
                        match a_keyPair a, dk with
                        | Some kp, None => Some (mkManifest 1 [publicKey kp])
                        | _, _ => None
                        end
                    end /\
     (∀ k, o_key opts = Some k -> id_decode k = a_key a /\ is_Some (a_key a)) /\
     (o_key opts = None -> a_key a = hypercore_key <$> a_manifest a) /\
     (∀ d, dk = Some d -> a_discoveryKey a = d) /\
     (∀ d, dk = None -> o_discoveryKey opts = Some d -> id_decode d = Some (a_discoveryKey a)) /\
     (dk = None -> o_discoveryKey opts = None ->
        ∃ k, a_key a = Some k /\ a_discoveryKey a = discoveryKeyOf k)) /\
  (∀ dk opts, _auth pk ns dk opts = None <->
     (∃ k, o_key opts = Some k /\ id_decode k = None) \/
     (dk = None /\ ∃ d, o_discoveryKey opts = Some d /\ id_decode d = None) \/
     (dk = None /\ o_discoveryKey opts = None /\ o_key opts = None /\
      o_manifest opts = None /\ name_truthy (o_name opts) = None /\ o_keyPair opts = None)) /\
  (∀ name cim, name_truthy (Some name) = Some name ->
     let kp := createKeyPair pk ns name in
     let m := mkManifest 1 [publicKey kp] in
     _auth pk ns None (mkGetOpts (Some name) None None None None cim)
     = Some (mkAuth (Some kp) (Some (hypercore_key m))
               (discoveryKeyOf (hypercore_key m)) (Some m))) /\
  (∀ kp cim,
     let m := mkManifest 1 [publicKey kp] in
     _auth pk ns None (mkGetOpts None (Some kp) None None None cim)
     = Some (mkAuth (Some kp) (Some (hypercore_key m))
               (discoveryKeyOf (hypercore_key m)) (Some m))) /\
  (∀ k k' cim, id_decode k = Some k' ->
     _auth pk ns None (mkGetOpts None None None (Some k) None cim)
     = Some (mkAuth None (Some k') (discoveryKeyOf k') None)) /\
  (∀ k cim, id_decode k = None ->
     _auth pk ns None (mkGetOpts None None None (Some k) None cim) = None) /\
  (∀ n cim, name_truthy n = None ->
     _auth pk ns None (mkGetOpts n None None None None cim) = None).
Proof.
  split; [| split; [| split; [| split; [| split; [| split]]]]].
  - intros dk [n kp m k d cim] a Ha. unfold _auth in Ha.
    cbn [o_name o_keyPair o_manifest o_key o_discoveryKey] in *.
    destruct k as [k |]; try destruct (id_decode k) as [k' |] eqn:Hk;
    destruct dk as [dk |]; destruct d as [d |];
    try destruct (id_decode d) as [d' |] eqn:Hd;
    repeat match type of Ha with
      | context [match ?x with _ => _ end] => destruct x eqn:?
      end;
    try discriminate; injection Ha as <-; cbn [a_keyPair a_manifest a_key a_discoveryKey];
    repeat split; intros; simplify_eq; eauto.
  - intros dk opts. apply auth_None_iff.
  - intros name cim Hn. unfold _auth. cbn [o_name o_keyPair o_manifest o_key o_discoveryKey].
    rewrite Hn. reflexivity.
  - intros kp cim. reflexivity.
  - intros k k' cim Hk. unfold _auth. cbn [o_name o_keyPair o_manifest o_key o_discoveryKey].
    by rewrite Hk.
  - intros k cim Hk. unfold _auth. cbn [o_name o_keyPair o_manifest o_key o_discoveryKey].
    by rewrite Hk.
  - intros n cim Hn. unfold _auth. cbn [o_name o_keyPair o_manifest o_key o_discoveryKey].
    by rewrite Hn.
Qed.

Lemma auth_fields_witness :
  _auth [x01] [x00] None (mkGetOpts (Some (NameStr "a")) None None None None None)
  = (let kp := createKeyPair [x01] [x00] (NameStr "a") in
     let m := mkManifest 1 [publicKey kp] in
     Some (mkAuth (Some kp) (Some (hypercore_key m)) (discoveryKeyOf (hypercore_key m)) (Some m))) /\
  _auth [x01] [x00] None (mkGetOpts None None None (Some [x05]) None None)
  = Some (mkAuth None (Some [x05]) [x05; x00] None) /\
  _auth [x01] [x00] None (mkGetOpts None None None (Some []) None None) = None /\
  _auth [x01] [x00] None (mkGetOpts None None None None None None) = None.
Proof.
  split; [| split; [| split]].
  - apply (proj1 (proj2 (proj2 (auth_fields [x01] [x00]))) (NameStr "a") None). reflexivity.
  - etransitivity;
      [apply (proj1 (proj2 (proj2 (proj2 (proj2 (auth_fields [x01] [x00]))))) [x05] [x05] None);
       reflexivity | reflexivity].
  - apply (proj1 (proj2 (proj2 (proj2 (proj2 (proj2 (auth_fields [x01] [x00])))))) [] None).
    reflexivity.
  - apply (proj2 (proj2 (proj2 (proj2 (proj2 (proj2 (auth_fields [x01] [x00])))))) None None).
    reflexivity.
Defined.

(** ** Closing *)


Definition is_core_event (e : CloseEvent) : bool :=
  match e with EvCloseCore _ => true | _ => false end.





(** ** Replication *)

Lemma attach_opts_auth `{Sodium} `{Engine} (pk ns dk : bytes) :
  _auth pk ns (Some dk) (mkGetOpts None None None None None (Some false))
  = Some (mkAuth None None dk None).
Proof. reflexivity. Qed.

(** C6: the [ondiscoverykey] callback does nothing while the store is
    closing, and nothing when the key is neither registered nor in storage;
    otherwise the registered core, or a new one created with
    [createIfMissing: false], ends up opened and attached to the stream's
    muxer, attached once only, and no other registry entry changes. *)
Theorem ondiscoverykey_attach `{Sodium} `{Engine} (pk ns : bytes) (has : bytes -> bool)
    (muxer : nat) (dk : bytes) (r : Registry) :
  ondiscoverykey true pk ns has muxer dk r = r /\
  (cores r !! toHex dk = None -> has dk = false ->
     ondiscoverykey false pk ns has muxer dk r = r) /\
  (is_Some (cores r !! toHex dk) \/ has dk = true ->
     let r' := ondiscoverykey false pk ns has muxer dk r in
     (∀ id, id ≠ toHex dk -> cores r' !! id = cores r !! id) /\
     ∃ c, cores r' !! toHex dk = Some c /\
       core_opened c = true /\ muxer ∈ core_attached c /\
       (∀ c0, cores r !! toHex dk = Some c0 ->
          core_oid c = core_oid c0 /\ core_discoveryKey c = core_discoveryKey c0 /\
          (muxer ∈ core_attached c0 -> core_attached c = core_attached c0)) /\
       (cores r !! toHex dk = None ->
          core_createIfMissing c = Some false /\ core_discoveryKey c = dk /\
          core_attached c = [muxer])).
Proof.
  split; [done |]. split.
  - intros Hnone Hhas. unfold ondiscoverykey, _attachMaybe.
    rewrite Hnone, Hhas. done.
  - intros Hcase. unfold ondiscoverykey, _attachMaybe.
    assert (Hgate : (bool_decide (cores r !! toHex dk = None) && negb (has dk)) = false).
    { destruct Hcase as [[c0 Hc0] | Hh].
      - rewrite Hc0. done.
      - rewrite Hh. apply andb_false_r. }
    rewrite Hgate. unfold _getCore. rewrite attach_opts_auth. cbn [a_discoveryKey].
    unfold set_core; cbn [cores].
    split.
    + intros id Hid. destruct (cores r !! toHex dk) eqn:Hl; simpl;
        rewrite !lookup_insert_ne by done; done.
    + destruct (cores r !! toHex dk) as [c0 |] eqn:Hl; simpl.
      * eexists. rewrite lookup_insert_eq. split; [done |].
        unfold attached.
        set (c1 := if core_opened c0 then c0 else core_ready c0).
        assert (H1 : core_opened c1 = true /\ core_oid c1 = core_oid c0 /\
                     core_discoveryKey c1 = core_discoveryKey c0 /\
                     core_attached c1 = core_attached c0).
        { unfold c1. destruct (core_opened c0) eqn:Ho; done. }
        destruct H1 as (Ho1 & Hid1 & Hdk1 & Hat1).
        destruct (bool_decide (muxer ∈ core_attached c1)) eqn:Ha.
        -- apply bool_decide_eq_true in Ha.
           repeat split; try done; simplify_eq; done.
        -- apply bool_decide_eq_false in Ha. rewrite Hat1 in Ha.
           repeat split; simpl; try done; simplify_eq; try done.
           apply elem_of_app. right. by apply list_elem_of_singleton.
      * eexists. rewrite lookup_insert_eq. split; [done |]. simpl.
        split; [done |]. split; [by left |]. split; [done |]. done.
Qed.

Lemma ondiscoverykey_attach_witness :
  let r' := ondiscoverykey false [x01] [x00] (fun _ => true) 7 [x05] (mkRegistry ∅ 0) in
  ∃ c, cores r' !! toHex [x05] = Some c /\ core_opened c = true /\ 7 ∈ core_attached c.
Proof.
  intros r'.
  destruct (proj2 (proj2 (ondiscoverykey_attach [x01] [x00] (fun _ => true) 7 [x05]
                           (mkRegistry ∅ 0))) (or_intror eq_refl))
    as [_ (c & Hc & Ho & Ha & _)].
  exists c. auto.
Defined.

Lemma attach_fold_spec (L : list nat) (c : Core) :
  let c' := fold_left (fun c muxer => if attached c muxer then c else attach c muxer) L c in
  (∀ m, m ∈ L -> m ∈ core_attached c') /\
  (∀ m, m ∈ core_attached c -> m ∈ core_attached c') /\
  core_oid c' = core_oid c /\ core_downloading c' = core_downloading c /\
  core_opened c' = core_opened c.
Proof.
  revert c. induction L as [| x L IH]; intros c; simpl.
  - split; [intros m Hm; by apply elem_of_nil in Hm |]. done.
  - set (c1 := if attached c x then c else attach c x).
    assert (Hx : x ∈ core_attached c1 /\
                 (∀ m, m ∈ core_attached c -> m ∈ core_attached c1) /\
                 core_oid c1 = core_oid c /\ core_downloading c1 = core_downloading c /\
                 core_opened c1 = core_opened c).
    { unfold c1, attached. case_bool_decide as Ha; [done |]. simpl.
      repeat split; try done.
      - apply elem_of_app. right. by apply list_elem_of_singleton.
      - intros m Hm. apply elem_of_app. by left. }
    destruct Hx as (Hx & Hsub & Hoid & Hdl & Hop).
    destruct (IH c1) as (IH1 & IH2 & IH3 & IH4 & IH5).
    split; [| split; [| split; [| split]]].
    + intros m Hm. apply elem_of_cons in Hm as [-> | Hm]; auto.
    + auto.
    + congruence.
    + congruence.
    + congruence.
Qed.

Lemma tracked_muxers_add (muxer : nat) (ext : bool) (t : StreamTracker) :
  muxer ∈ tracked_muxers (snd (st_add muxer ext t)).
Proof.
  unfold tracked_muxers, st_add. simpl. rewrite omap_app.
  apply elem_of_app. right. simpl. rewrite lookup_insert_eq. simpl.
  by apply list_elem_of_singleton.
Qed.

(** X21: the initial burst of [replicate] attaches a registered
    core to the new stream's muxer exactly when it is downloading, opened
    and not attached to that muxer yet (a closing flag is not consulted),
    leaves every other core as it is, and the stream is then tracked; when
    a core's downloading flag turns on, [ondownloading] attaches it to the
    muxer of every tracked stream. *)
Theorem replicate_attach (muxer : nat) (ext : bool) (r r' : Registry)
    (t t' : StreamTracker) :
  Corestore_replicate false muxer ext r t = Some (r', t') ->
  (∀ id, cores r' !! id =
     (fun c => if core_downloading c && core_opened c && negb (attached c muxer)
               then attach c muxer else c) <$> cores r !! id) /\
  muxer ∈ tracked_muxers t' /\
  (∀ id c, cores r !! id = Some c ->
     ∃ c', cores (set_downloading id t r) !! id = Some c' /\
       core_downloading c' = true /\ core_oid c' = core_oid c /\
       (∀ m, m ∈ tracked_muxers t -> m ∈ core_attached c') /\
       (∀ m, m ∈ core_attached c -> m ∈ core_attached c')).
Proof.
  unfold Corestore_replicate. intros Hr. injection Hr as <- <-.
  split; [| split; [apply tracked_muxers_add |]].
  - intros id. case_bool_decide as Hsz; simpl.
    + rewrite lookup_fmap. destruct (cores r !! id) as [c |]; simpl; [| done].
      f_equal. unfold burst_core.
      destruct (core_downloading c), (attached c muxer), (core_opened c); done.
    + destruct (cores r !! id) as [c |] eqn:Hc; simpl; [| done].
      exfalso. apply Hsz.
      assert (size (cores r) ≠ 0) by (apply map_size_ne_0_lookup; eauto). lia.
  - intros id c Hc. unfold set_downloading. rewrite Hc.
    unfold ondownloading, set_core. simpl. rewrite lookup_insert_eq.
    simpl. rewrite lookup_insert_eq. eexists. split; [done |].
    unfold attachAll.
    destruct (attach_fold_spec (tracked_muxers t)
      (mkCore (core_oid c) (core_discoveryKey c) (core_key c) (core_keyPair c)
         (core_manifest c) (core_createIfMissing c) (core_alias c) (core_opened c)
         (core_closing c) true (core_attached c))) as (H1 & H2 & H3 & H4 & _).
    repeat split; auto.
Qed.

Lemma replicate_attach_witness :
  let c := mkCore 0 [x05] None None None None None true false true [] in
  let r := mkRegistry (<["05"%string := c]> ∅) 1 in
  let r' := mkRegistry (<["05"%string := attach c 7]> ∅) 1 in
  let t' := snd (st_add 7 false empty_tracker) in
  cores r' !! "05"%string = Some (attach c 7) /\ 7 ∈ tracked_muxers t'.
Proof.
  intros c r r' t'.
  destruct (replicate_attach 7 false r r' empty_tracker t' eq_refl) as (H1 & H2 & _).
  split; [rewrite H1; reflexivity | exact H2].
Defined.

(** ** The stream tracker *)

Lemma st_add_index_zero (muxer : nat) (ext : bool) (t : StreamTracker) :
  let '(ref, t') := st_add muxer ext t in rec_index <$> heap t' !! ref = Some 0%Z.
Proof. unfold st_add. simpl. by rewrite lookup_insert_eq. Qed.

(** C8 (code bug): [add] gives every record [index: 0], so [remove] of a
    record that is neither last nor first writes the tail record into slot
    0: with three streams, removing the second one drops the first stream
    from the list and keeps the removed one. *)
Theorem stream_tracker_remove_keeps_removed :
  let t3 := snd (st_add 3 false (snd (st_add 2 false (snd (st_add 1 false empty_tracker))))) in
  records t3 = [0; 1; 2] /\ tracked_muxers t3 = [1; 2; 3] /\
  (records <$> st_remove 1 t3) = Some [2; 1] /\
  (tracked_muxers <$> st_remove 1 t3) = Some [3; 2].
Proof. repeat split; reflexivity. Qed.

(** C7 (code bug): through the [remove] slip of C8, a core whose
    downloading flag turns on misses a live stream: with streams on muxers
    1, 2 and 3 and the second one closed ([remove] of its record),
    [ondownloading] attaches the core to muxers 3 and 2, the closed
    stream's included, and not to muxer 1, whose stream is still open. *)
Theorem ondownloading_misses_live_stream :
  let t3 := snd (st_add 3 false (snd (st_add 2 false (snd (st_add 1 false empty_tracker))))) in
  let c := mkCore 0 [x05] None None None None None true false false [] in
  let r := mkRegistry (<["05"%string := c]> ∅) 1 in
  ∃ t, st_remove 1 t3 = Some t /\
    (core_downloading <$> cores (set_downloading "05" t r) !! "05"%string) = Some true /\
    (core_attached <$> cores (set_downloading "05" t r) !! "05"%string) = Some [3; 2] /\
    (core_attached <$> cores (set_downloading "05" t3 r) !! "05"%string) = Some [1; 2; 3].
Proof. eexists. split; [reflexivity |]. repeat split; reflexivity. Qed.

(** ** Finding peers *)

Lemma release_done (h : nat) (s : FPState) :
  fp_done s !! h = Some true -> release h s = s.
Proof. unfold release. by intros ->. Qed.

Lemma release_marks_done (h : nat) (s : FPState) :
  fp_done s !! h = Some false -> fp_done (release h s) !! h = Some true.
Proof.
  unfold release, _decFindingPeers. intros ->. simpl.
  destruct (negb _); simpl; apply lookup_insert_eq.
Qed.

(** C9: [findingPeers] adds one to the counter and acquires a token for
    every existing session only on the 0 -> 1 transition; calling its
    handle any number of times has the effect of one call, which takes
    one off the counter and releases every acquired token (last acquired
    first) only on the 1 -> 0 transition. *)
Theorem findingPeers_counter (s : FPState) :
  (let '(h, s1) := findingPeers s in
   fp_count s1 = (fp_count s + 1)%Z /\
   fp_done s1 !! h = Some false /\
   (fp_count s = 0%Z ->
      fp_tokens s1 = fp_tokens s ++ fp_sessions s /\
      fp_log s1 = fp_log s ++ map Acquire (fp_sessions s)) /\
   (fp_count s ≠ 0%Z -> fp_tokens s1 = fp_tokens s /\ fp_log s1 = fp_log s)) /\
  (∀ h, fp_done s !! h = Some false ->
     (∀ n, Nat.iter (S n) (release h) s = release h s) /\
     fp_count (release h s) = (fp_count s - 1)%Z /\
     (fp_count s = 1%Z ->
        fp_tokens (release h s) = [] /\
        fp_log (release h s) = fp_log s ++ map Release (rev (fp_tokens s))) /\
     (fp_count s ≠ 1%Z ->
        fp_tokens (release h s) = fp_tokens s /\ fp_log (release h s) = fp_log s)).
Proof.
  split.
  - unfold findingPeers, _incFindingPeers. simpl.
    destruct (Z.eqb_spec (fp_count s + 1) 1) as [Heq | Hne]; simpl.
    + split; [done |]. split; [apply lookup_insert_eq |].
      split; [done |]. intros Hc. lia.
    + split; [done |]. split; [apply lookup_insert_eq |].
      split; [intros Hc; lia | done].
  - intros h Hh. split; [| split; [| split]].
    + intros n. induction n as [| n IH]; [done |].
      change (Nat.iter (S (S n)) (release h) s) with (release h (Nat.iter (S n) (release h) s)).
      rewrite IH. apply release_done, release_marks_done, Hh.
    + unfold release, _decFindingPeers. rewrite Hh. simpl.
      destruct (negb _); done.
    + intros Hc. unfold release, _decFindingPeers. rewrite Hh. simpl.
      rewrite Hc. simpl. done.
    + intros Hc. unfold release, _decFindingPeers. rewrite Hh. simpl.
      destruct (Z.eqb_spec (fp_count s - 1) 0) as [Heq | Hne]; [lia | done].
Qed.

Lemma findingPeers_counter_witness :
  let s := mkFP 1 [4] [4; 5] (<[0 := false]> ∅) 1 [Acquire 4] in
  Nat.iter 3 (release 0) s = release 0 s /\ fp_tokens (release 0 s) = [].
Proof.
  intros s.
  destruct (proj2 (findingPeers_counter s) 0 eq_refl) as (Hiter & _ & Hone & _).
  split; [exact (Hiter 2) | exact (proj1 (Hone eq_refl))].
Defined.

(** ** Watchers *)

(** Every registered store's [watchIndex] is its position in [watching];
    an unregistered store has [watchIndex = -1]. *)
Definition watch_inv (s : WatchState) : Prop :=
  (∀ i x, watching s !! i = Some x -> watchIndex s x = Z.of_nat i) /\
  (∀ x, x ∉ watching s -> watchIndex s x = (-1)%Z).

Lemma upd_eq {A} (f : nat -> A) k v : upd f k v k = v.
Proof. unfold upd. by rewrite Nat.eqb_refl. Qed.

Lemma upd_ne {A} (f : nat -> A) k k' v : k' ≠ k -> upd f k v k' = f k'.
Proof. unfold upd. intros Hne. by destruct (Nat.eqb_spec k' k). Qed.

Lemma js_pop_snoc {A} (l : list A) (x : A) : js_pop (l ++ [x]) = Some (l, x).
Proof. unfold js_pop. rewrite rev_app_distr. simpl. by rewrite rev_involutive. Qed.

Lemma watch_inv_unique (s : WatchState) i j x :
  watch_inv s -> watching s !! i = Some x -> watching s !! j = Some x -> i = j.
Proof. intros [Hi _] H1 H2. apply Hi in H1. apply Hi in H2. lia. Qed.

Lemma watch_inv_registered (s : WatchState) x :
  watch_inv s -> x ∈ watching s -> watchIndex s x ≠ (-1)%Z.
Proof.
  intros [Hi _] Hx. apply list_elem_of_lookup in Hx as [i Hx].
  apply Hi in Hx. lia.
Qed.

Lemma CoreTracker_watch_spec (s : WatchState) (st : nat) :
  watch_inv s ->
  watch_inv (CoreTracker_watch st s) /\
  (st ∈ watching s -> CoreTracker_watch st s = s) /\
  (st ∉ watching s -> watching (CoreTracker_watch st s) = watching s ++ [st]) /\
  watchers (CoreTracker_watch st s) = watchers s.
Proof.
  intros Hinv. unfold CoreTracker_watch.
  destruct (Z.eqb_spec (watchIndex s st) (-1)) as [Hm | Hm]; simpl.
  - assert (Hnot : st ∉ watching s)
      by (intros Hin; by apply (watch_inv_registered s st Hinv) in Hin).
    destruct Hinv as [Hi Hn].
    split; [split |]; simpl.
    + intros i x Hx. apply lookup_snoc_Some in Hx as [[Hlt Hx] | [-> <-]].
      * rewrite upd_ne; [by apply Hi |].
        intros ->. apply Hnot. by eapply list_elem_of_lookup_2.
      * by rewrite upd_eq.
    + intros x Hx. rewrite upd_ne.
      * apply Hn. intros Hin. apply Hx, elem_of_app. by left.
      * intros ->. apply Hx, elem_of_app. right. by apply list_elem_of_singleton.
    + split; [done |]. split; done.
  - split; [done |]. split; [done |]. split; [| done].
    intros Hnot. exfalso. apply Hm. by apply Hinv.
Qed.

Lemma CoreTracker_unwatch_spec (s : WatchState) (st : nat) :
  watch_inv s ->
  ∃ s', CoreTracker_unwatch st s = Some s' /\ watch_inv s' /\ (st ∉ watching s') /\
    watchers s' = watchers s /\
    (st ∉ watching s -> s' = s) /\
    (∀ l head i, watching s = l ++ [head] -> watching s !! i = Some st ->
       watching s' = if Nat.eqb head st then l else <[i := head]> l).
Proof.
  intros Hinv. unfold CoreTracker_unwatch.
  destruct (Z.eqb_spec (watchIndex s st) (-1)) as [Hm | Hm].
  { assert (Hnot : st ∉ watching s)
      by (intros Hin; by apply (watch_inv_registered s st Hinv) in Hin).
    exists s. split; [done |]. split; [done |]. split; [done |].
    split; [done |]. split; [done |].
    intros l head i _ Hi. exfalso. apply Hnot. by eapply list_elem_of_lookup_2. }
  assert (Hin : st ∈ watching s).
  { destruct (decide (st ∈ watching s)) as [? | Hn]; [done |].
    exfalso. apply Hm. by apply Hinv. }
  apply list_elem_of_lookup in Hin as [i Hi].
  destruct (watching s) as [| w0 ws] eqn:Hw using rev_ind; [done |].
  clear IHws. rename w0 into head, ws into l.
  rewrite js_pop_snoc.
  pose proof Hinv as [Hidx Hout]. rewrite Hw in Hidx, Hout.
  assert (Hsti : watchIndex s st = Z.of_nat i) by (apply Hidx; done).
  assert (Hheadpos : watchIndex s head = Z.of_nat (length l)).
  { apply Hidx. apply lookup_snoc_Some. by right. }
  destruct (Nat.eqb_spec head st) as [-> | Hne].
  - (* the store is the last one: it is just popped *)
    assert (Hnotl : st ∉ l).
    { intros Hl. apply list_elem_of_lookup in Hl as [j Hj].
      pose proof (lookup_lt_Some _ _ _ Hj) as Hlt.
      assert (watchIndex s st = Z.of_nat j) by (apply Hidx; by apply lookup_app_l_Some).
      lia. }
    eexists. split; [done |]. split; [split |]; simpl.
    + intros j x Hx. rewrite upd_ne.
      * apply Hidx. by apply lookup_app_l_Some.
      * intros ->. apply Hnotl. by eapply list_elem_of_lookup_2.
    + intros x Hx. destruct (decide (x = st)) as [-> | Hxs]; [by rewrite upd_eq |].
      rewrite upd_ne by done. apply Hout. rewrite elem_of_app, list_elem_of_singleton.
      intros [? | ?]; done.
    + split; [done |]. split; [done |]. split.
      * intros Hn. exfalso. apply Hn. apply elem_of_app. right. by apply list_elem_of_singleton.
      * intros l' head' j Heq _. apply app_inj_tail in Heq as [<- <-].
        by rewrite Nat.eqb_refl.
  - (* the last store moves into the vacated slot *)
    assert (Hlt : i < length l).
    { apply lookup_snoc_Some in Hi as [[? _] | [_ ?]]; [done | congruence]. }
    assert (Hli : l !! i = Some st).
    { apply lookup_snoc_Some in Hi as [[_ ?] | [? _]]; [done | lia]. }
    assert (Hnoth : head ∉ l).
    { intros Hl. apply list_elem_of_lookup in Hl as [j Hj].
      pose proof (lookup_lt_Some _ _ _ Hj) as Hlt'.
      assert (watchIndex s head = Z.of_nat j) by (apply Hidx; by apply lookup_app_l_Some).
      lia. }
    rewrite Hsti. unfold array_set.
    replace ((0 <=? Z.of_nat i)%Z && (Z.of_nat i <? Z.of_nat (length l))%Z) with true
      by (symmetry; apply andb_true_iff; split; [apply Z.leb_le | apply Z.ltb_lt]; lia).
    rewrite Nat2Z.id.
    assert (Huniq : ∀ j, l !! j = Some st -> j = i).
    { intros j Hj. assert (watchIndex s st = Z.of_nat j)
        by (apply Hidx; by apply lookup_app_l_Some). lia. }
    eexists. split; [done |]. split; [split |]; simpl.
    + intros j x Hx.
      destruct (decide (i = j)) as [<- | Hij].
      * rewrite list_lookup_insert_eq in Hx by done. injection Hx as <-.
        rewrite upd_ne by done. by rewrite upd_eq.
      * rewrite list_lookup_insert_ne in Hx by done.
        assert (Hxs : x ≠ st) by (intros ->; apply Hij; symmetry; by apply Huniq).
        assert (Hxh : x ≠ head) by (intros ->; apply Hnoth; by eapply list_elem_of_lookup_2).
        rewrite upd_ne by done. rewrite upd_ne by done.
        apply Hidx. by apply lookup_app_l_Some.
    + intros x Hx. destruct (decide (x = st)) as [-> | Hxs]; [by rewrite upd_eq |].
      assert (Hxh : x ≠ head).
      { intros ->. apply Hx. apply list_elem_of_lookup. exists i.
        by apply list_lookup_insert_eq. }
      rewrite upd_ne by done. rewrite upd_ne by done. apply Hout.
      rewrite elem_of_app, list_elem_of_singleton. intros [Hl | ?]; [| done].
      apply list_elem_of_lookup in Hl as [j Hj]. apply Hx, list_elem_of_lookup.
      exists j. rewrite list_lookup_insert_ne; [done |].
      intros ->. rewrite Hli in Hj. congruence.
    + split.
      { intros Hs. apply list_elem_of_lookup in Hs as [j Hj].
        destruct (decide (i = j)) as [<- | Hij].
        - rewrite list_lookup_insert_eq in Hj by done. congruence.
        - rewrite list_lookup_insert_ne in Hj by done.
          apply Hij. symmetry. by apply Huniq. }
      split; [done |]. split.
      * intros Hn. exfalso. apply Hn. apply elem_of_app. left.
        by eapply list_elem_of_lookup_2.
      * intros l' head' j Heq Hj. apply app_inj_tail in Heq as [<- <-].
        assert (j = i) by (rewrite <- Hw in Hi, Hj; by eapply (watch_inv_unique s j i st Hinv)).
        subst j. destruct (Nat.eqb_spec head st); [done | done].
Qed.

Lemma elem_of_insert_other (l : list nat) (i y z x : nat) :
  l !! i = Some z -> x ≠ z -> (x ∈ <[i := y]> l <-> x = y \/ x ∈ l).
Proof.
  intros Hz Hxz. split.
  - intros Hx. apply list_elem_of_lookup in Hx as [j Hj].
    destruct (decide (i = j)) as [<- | Hij].
    + rewrite list_lookup_insert_eq in Hj by (eapply lookup_lt_Some; eauto).
      left. congruence.
    + rewrite list_lookup_insert_ne in Hj by done. right.
      by eapply list_elem_of_lookup_2.
  - intros [-> | Hx].
    + apply list_elem_of_insert. by eapply lookup_lt_Some.
    + apply list_elem_of_lookup in Hx as [j Hj]. apply list_elem_of_lookup.
      exists j. rewrite list_lookup_insert_ne; [done |].
      intros ->. congruence.
Qed.

Lemma CoreTracker_unwatch_members (s s' : WatchState) (st : nat) :
  watch_inv s -> CoreTracker_unwatch st s = Some s' ->
  ∀ x, x ≠ st -> (x ∈ watching s' <-> x ∈ watching s).
Proof.
  intros Hinv Hu x Hx.
  destruct (CoreTracker_unwatch_spec s st Hinv)
    as (s'' & Hu' & _ & _ & _ & Hsame & Hswap).
  rewrite Hu in Hu'. injection Hu' as <-.
  destruct (decide (st ∈ watching s)) as [Hin | Hnot]; [| by rewrite (Hsame Hnot)].
  apply list_elem_of_lookup in Hin as [i Hi].
  destruct (watching s) as [| head l] eqn:Hw using rev_ind; [done |].
  rewrite (Hswap l head i eq_refl Hi).
  destruct (Nat.eqb_spec head st) as [-> | Hne].
  - rewrite elem_of_app, list_elem_of_singleton. naive_solver.
  - assert (Hli : l !! i = Some st).
    { apply lookup_snoc_Some in Hi as [[_ ?] | [_ ?]]; [done | congruence]. }
    rewrite (elem_of_insert_other l i head st x Hli Hx).
    rewrite elem_of_app, list_elem_of_singleton. naive_solver.
Qed.

(** C10: [CoreTracker.watch] and [unwatch] keep every registered store's
    [watchIndex] equal to its position in [watching] and every other
    store's equal to -1; [watch] of a registered store changes nothing;
    [unwatch] removes exactly that store, moving the last store into its
    slot; and a store registers with the tracker only when its first
    callback is added ([watchers] was [null]) and deregisters when its
    last callback is removed. *)
Theorem watch_index_consistent (s : WatchState) (st fn : nat) :
  watch_inv s ->
  watch_inv (CoreTracker_watch st s) /\
  (st ∈ watching s -> CoreTracker_watch st s = s) /\
  (st ∉ watching s -> watching (CoreTracker_watch st s) = watching s ++ [st]) /\
  (∃ s', CoreTracker_unwatch st s = Some s' /\ watch_inv s' /\ (st ∉ watching s') /\
     (∀ x, x ≠ st -> (x ∈ watching s' <-> x ∈ watching s)) /\
     (∀ l head i, watching s = l ++ [head] -> watching s !! i = Some st ->
        watching s' = if Nat.eqb head st then l else <[i := head]> l)) /\
  (watchers s st = None ->
     watching (Corestore_watch st fn s) = watching (CoreTracker_watch st s) /\
     watchIndex (Corestore_watch st fn s) = watchIndex (CoreTracker_watch st s) /\
     watchers (Corestore_watch st fn s) st = Some [fn]) /\
  (∀ w, watchers s st = Some w ->
     watching (Corestore_watch st fn s) = watching s /\
     watchIndex (Corestore_watch st fn s) = watchIndex s /\
     watchers (Corestore_watch st fn s) st = Some (set_add fn w)) /\
  (∀ w, watchers s st = Some w -> set_delete fn w = [] ->
     ∃ s', Corestore_unwatch st fn s = Some s' /\ watch_inv s' /\
           (st ∉ watching s') /\ watchers s' st = None) /\
  (∀ w, watchers s st = Some w -> set_delete fn w ≠ [] ->
     ∃ s', Corestore_unwatch st fn s = Some s' /\ watching s' = watching s /\
           watchIndex s' = watchIndex s /\ watchers s' st = Some (set_delete fn w)) /\
  (watchers s st = None -> Corestore_unwatch st fn s = Some s).
Proof.
  intros Hinv.
  destruct (CoreTracker_watch_spec s st Hinv) as (Hw1 & Hw2 & Hw3 & _).
  split; [done |]. split; [done |]. split; [done |]. split.
  { destruct (CoreTracker_unwatch_spec s st Hinv)
      as (s' & Hu & Hinv' & Hnot & _ & _ & Hswap).
    exists s'. split; [done |]. split; [done |]. split; [done |].
    split; [| done]. by apply (CoreTracker_unwatch_members s s' st). }
  split; [| split; [| split; [| split]]].
  - intros Hnone. unfold Corestore_watch. rewrite Hnone. simpl.
    rewrite upd_eq. unfold CoreTracker_watch.
    by destruct (negb _).
  - intros w Hw. unfold Corestore_watch. rewrite Hw. simpl. by rewrite upd_eq.
  - intros w Hw Hdel. unfold Corestore_unwatch. rewrite Hw, Hdel. simpl.
    set (s0 := mkWS (watching s) (watchIndex s) (upd (watchers s) st None)).
    assert (Hinv0 : watch_inv s0) by exact Hinv.
    destruct (CoreTracker_unwatch_spec s0 st Hinv0)
      as (s' & Hu & Hinv' & Hnot & Hwat & _).
    exists s'. split; [done |]. split; [done |]. split; [done |].
    rewrite Hwat. simpl. apply upd_eq.
  - intros w Hw Hdel. unfold Corestore_unwatch. rewrite Hw.
    rewrite bool_decide_false by (intros Hl; apply Hdel; by apply length_zero_iff_nil).
    eexists. split; [done |]. simpl. split; [done |]. split; [done |]. apply upd_eq.
  - intros Hnone. unfold Corestore_unwatch. by rewrite Hnone.
Qed.

Lemma watch_index_consistent_witness :
  let s := mkWS [3; 5; 8] (fun x => match x with 3 => 0%Z | 5 => 1%Z | 8 => 2%Z | _ => (-1)%Z end)
             (fun x => match x with 3 | 5 | 8 => Some [1] | _ => None end) in
  option_map watching (CoreTracker_unwatch 3 s) = Some [8; 5].
Proof.
  intros s.
  assert (Hinv : watch_inv s).
  { split.
    - intros i x Hx. destruct i as [| [| [| i]]]; simpl in Hx; simplify_eq; done.
    - intros x Hx. destruct x as [| [| [| [| [| [| [| [| [| x]]]]]]]]]; try done;
        exfalso; apply Hx; simpl; set_solver. }
  destruct (watch_index_consistent s 3 1 Hinv) as (_ & _ & _ & (s' & Hu & _ & _ & _ & Hswap) & _).
  rewrite Hu. simpl. f_equal. rewrite (Hswap [3; 5] 8 0 eq_refl eq_refl). reflexivity.
Defined.

(** * Further properties of the code *)

(** ** Registry ids *)

Lemma hex_pair_byte (x : byte) :
  Byte.of_N (16 * unhex_digit (hex_digit (Byte.to_N x / 16))
             + unhex_digit (hex_digit (Byte.to_N x mod 16)))%N = Some x.
Proof. destruct x; vm_compute; reflexivity. Qed.

Lemma fromHex_toHex (b : bytes) : fromHex (toHex b) = Some b.
Proof. induction b as [| x b IH]; [done |]. simpl. by rewrite hex_pair_byte, IH. Qed.

Lemma toHex_inj (a b : bytes) : toHex a = toHex b -> a = b.
Proof.
  intros Heq. apply (f_equal fromHex) in Heq. rewrite !fromHex_toHex in Heq.
  by injection Heq.
Qed.

(** X1: [toHex] writes two hex digits per byte and loses nothing: it has an
    inverse, so distinct discovery keys get distinct registry ids. *)
Theorem toHex_injective (a b : bytes) :
  fromHex (toHex b) = Some b /\
  String.length (toHex b) = 2 * length b /\
  (toHex a = toHex b -> a = b).
Proof.
  split; [apply fromHex_toHex |]. split; [| apply toHex_inj].
  induction b as [| x b IH]; simpl; [done |]. rewrite IH. lia.
Qed.

(** What [_getCore] returns: the resolved identity, the core stored under
    its hex, and either the registry unchanged or one new entry. *)
Lemma getCore_spec `{Sodium} `{Engine} pk ns dk opts r c r' :
  reg_wf r -> _getCore pk ns dk opts r = Some (c, r') ->
  ∃ auth, _auth pk ns dk opts = Some auth /\
    cores r' !! toHex (a_discoveryKey auth) = Some c /\
    toHex (core_discoveryKey c) = toHex (a_discoveryKey auth) /\
    ((r' = r) \/
     (cores r !! toHex (a_discoveryKey auth) = None /\
      c = createCore (next_oid r) auth opts ns /\
      r' = mkRegistry (<[toHex (a_discoveryKey auth) := c]> (cores r)) (S (next_oid r)))).
Proof.
  intros Hwf. unfold _getCore.
  destruct (_auth pk ns dk opts) as [auth |]; [| done].
  destruct (cores r !! toHex (a_discoveryKey auth)) as [ex |] eqn:Hl; intros Heq; simplify_eq.
  - exists auth. split; [done |]. split; [done |].
    split; [| by left]. symmetry. by apply (Hwf _ _ Hl).
  - exists auth. split; [done |]. simpl. rewrite lookup_insert_eq.
    split; [done |]. split; [done |]. right. done.
Qed.

Lemma getCore_wf `{Sodium} `{Engine} pk ns dk opts r c r' :
  reg_wf r -> _getCore pk ns dk opts r = Some (c, r') -> reg_wf r'.
Proof.
  intros Hwf Hg.
  destruct (getCore_spec pk ns dk opts r c r' Hwf Hg)
    as (auth & _ & _ & _ & [-> | (_ & Hc & ->)]); [done |].
  intros id c0 Hl. simpl in Hl. apply lookup_insert_Some in Hl as [[<- <-] | [_ Hl]].
  - subst c. simpl. split; [done | lia].
  - destruct (Hwf _ _ Hl) as [? ?]. simpl. split; [done | lia].
Qed.

Lemma onidle_wf (id : string) (r : Registry) :
  reg_wf r -> reg_wf (registry_onidle id r).
Proof.
  intros Hwf id' c Hl. simpl in Hl. unfold core_onidle in Hl.
  apply lookup_delete_Some in Hl as [_ Hl]. by apply Hwf.
Qed.

Lemma getCore_registered `{Sodium} `{Engine} pk ns dk opts r c r' :
  reg_wf r -> _getCore pk ns dk opts r = Some (c, r') ->
  cores r' !! toHex (core_discoveryKey c) = Some c.
Proof.
  intros Hwf Hg.
  destruct (getCore_spec pk ns dk opts r c r' Hwf Hg) as (auth & _ & Hl & -> & _).
  done.
Qed.

(** X2: [_getCore] and the [onidle] hook keep every registry entry under the
    hex of its own discovery key, with an object id below the counter; the
    core [_getCore] returns is the one registered under that hex. *)
Theorem registry_ids_wf `{Sodium} `{Engine} (pk ns : bytes) (dk : option bytes)
    (opts : GetOpts) (id : string) (r : Registry) :
  reg_wf r ->
  reg_wf (registry_onidle id r) /\
  (∀ c r', _getCore pk ns dk opts r = Some (c, r') ->
     reg_wf r' /\ cores r' !! toHex (core_discoveryKey c) = Some c).
Proof.
  intros Hwf. split; [by apply onidle_wf |].
  intros c r' Hg. split; [by eapply getCore_wf | by eapply getCore_registered].
Qed.

(** X3: [_hasCore] sees the core [_getCore] registered, stops seeing it once
    its [onidle] hook has run, and the hook changes [_hasCore] of no other
    discovery key. *)
Theorem hasCore_getCore_onidle `{Sodium} `{Engine} (pk ns : bytes) (dk : option bytes)
    (opts : GetOpts) (r r' : Registry) (c : Core) :
  reg_wf r -> _getCore pk ns dk opts r = Some (c, r') ->
  let r'' := registry_onidle (toHex (core_discoveryKey c)) r' in
  _hasCore (core_discoveryKey c) r' = true /\
  _hasCore (core_discoveryKey c) r'' = false /\
  (∀ d, d ≠ core_discoveryKey c -> _hasCore d r'' = _hasCore d r').
Proof.
  intros Hwf Hg r''.
  pose proof (getCore_registered pk ns dk opts r c r' Hwf Hg) as Hl.
  unfold _hasCore, r'', registry_onidle, core_onidle. simpl.
  split; [rewrite Hl; by apply bool_decide_eq_true |].
  split; [rewrite lookup_delete_eq; by apply bool_decide_eq_false, is_Some_None |].
  intros d Hd. rewrite lookup_delete_ne; [done |].
  intros Heq. apply Hd. by apply toHex_inj.
Qed.

(** X4: After the [onidle] hook removed a core, resolving the same id again
    creates a new core object (a fresh object id) instead of reviving the
    removed one. *)
Theorem onidle_then_get_fresh `{Sodium} `{Engine} (pk ns : bytes) (dk : option bytes)
    (opts : GetOpts) (id : string) (r r' : Registry) (c c' : Core) :
  reg_wf r -> cores r !! id = Some c ->
  _getCore pk ns dk opts (registry_onidle id r) = Some (c', r') ->
  toHex (core_discoveryKey c') = id ->
  core_oid c' = next_oid r /\ core_oid c' ≠ core_oid c /\
  cores r' !! id = Some c'.
Proof.
  intros Hwf Hc Hg Hid.
  assert (Hwf' : reg_wf (registry_onidle id r)) by (by apply onidle_wf).
  destruct (getCore_spec pk ns dk opts _ c' r' Hwf' Hg)
    as (auth & _ & Hl & Hhex & [-> | (_ & Hnew & ->)]).
  - exfalso. simpl in Hl. unfold core_onidle in Hl.
    rewrite <- Hhex, Hid, lookup_delete_eq in Hl. done.
  - destruct (Hwf _ _ Hc) as [_ Hlt].
    subst c'. split; [done |]. split; [simpl; lia |].
    rewrite <- Hid, Hhex. simpl. by rewrite lookup_insert_eq.
Qed.

Lemma sample_registry_wf :
  reg_wf (mkRegistry {[ "01"%string := mkCore 0 [x01] None None None None None true false true [] ]} 1).
Proof.
  intros id c Hl. simpl in Hl. apply lookup_singleton_Some in Hl as [<- <-].
  split; [reflexivity | simpl; lia].
Qed.

Lemma registry_ids_wf_witness :
  ∃ c r', _getCore [] [] None (mkGetOpts None None None None (Some [x02]) None)
            (mkRegistry {[ "01"%string := mkCore 0 [x01] None None None None None true false true [] ]} 1)
          = Some (c, r') /\ reg_wf r' /\ cores r' !! "02"%string = Some c.
Proof.
  destruct (_getCore _ _ _ _ _) as [[c r'] |] eqn:Hg; [| vm_compute in Hg; discriminate].
  pose proof Hg as Hg'. vm_compute in Hg'. injection Hg' as Hc _. subst c.
  destruct (registry_ids_wf [] [] None (mkGetOpts None None None None (Some [x02]) None) "01"
              _ sample_registry_wf) as [_ Hget].
  exists (mkCore 1 [x02] None None None None None false false false []), r'.
  split; [done |]. exact (Hget _ _ Hg).
Defined.

Lemma hasCore_getCore_onidle_witness :
  ∃ c r', _getCore [] [] None (mkGetOpts None None None None (Some [x02]) None)
            (mkRegistry {[ "01"%string := mkCore 0 [x01] None None None None None true false true [] ]} 1)
          = Some (c, r') /\
    _hasCore [x02] r' = true /\
    _hasCore [x02] (registry_onidle "02" r') = false /\
    _hasCore [x01] (registry_onidle "02" r') = true.
Proof.
  destruct (_getCore _ _ _ _ _) as [[c r'] |] eqn:Hg; [| vm_compute in Hg; discriminate].
  pose proof Hg as Hg'. vm_compute in Hg'. injection Hg' as Hc Hr. subst c.
  destruct (hasCore_getCore_onidle [] [] None (mkGetOpts None None None None (Some [x02]) None)
              _ r' _ sample_registry_wf Hg) as (H1 & H2 & H3).
  exists (mkCore 1 [x02] None None None None None false false false []), r'.
  split; [done |]. split; [exact H1 |]. split; [exact H2 |].
  etransitivity; [apply (H3 [x01]); discriminate |]. subst r'. reflexivity.
Defined.

Lemma onidle_then_get_fresh_witness :
  ∃ c' r', _getCore [] [] None (mkGetOpts None None None None (Some [x01]) None)
             (registry_onidle "01"
                (mkRegistry {[ "01"%string := mkCore 0 [x01] None None None None None true false true [] ]} 1))
           = Some (c', r') /\ core_oid c' = 1 /\ cores r' !! "01"%string = Some c'.
Proof.
  destruct (_getCore _ _ _ _ _) as [[c' r'] |] eqn:Hg; [| vm_compute in Hg; discriminate].
  pose proof Hg as Hg'. vm_compute in Hg'. injection Hg' as Hc _. subst c'.
  destruct (onidle_then_get_fresh [] [] None (mkGetOpts None None None None (Some [x01]) None)
              "01" (mkRegistry {[ "01"%string := mkCore 0 [x01] None None None None None true false true [] ]} 1)
              r' (mkCore 0 [x01] None None None None None true false true []) _
              sample_registry_wf eq_refl Hg eq_refl) as (H1 & _ & H3).
  eexists _, r'. split; [reflexivity |]. split; [exact H1 | exact H3].
Defined.

(** ** Replication never attaches twice *)

Lemma NoDup_snoc_fresh (l : list nat) (m : nat) :
  NoDup l -> m ∉ l -> NoDup (l ++ [m]).
Proof.
  intros Hl Hm. apply NoDup_app. split; [done |]. split; [| apply NoDup_singleton].
  intros x Hx Hx'. apply list_elem_of_singleton in Hx' as ->. done.
Qed.

Lemma attach_step_keeps (c : Core) (m : nat) :
  let c' := if attached c m then c else attach c m in
  core_discoveryKey c' = core_discoveryKey c /\ core_oid c' = core_oid c /\
  core_opened c' = core_opened c /\ m ∈ core_attached c' /\
  (NoDup (core_attached c) -> NoDup (core_attached c')).
Proof.
  unfold attached. case_bool_decide as Ha; simpl; [done |].
  split; [done |]. split; [done |]. split; [done |]. split.
  - apply elem_of_app. right. by apply list_elem_of_singleton.
  - intros Hnd. by apply NoDup_snoc_fresh.
Qed.

Lemma fold_attach_keeps (L : list nat) (c : Core) :
  let c' := fold_left (fun c muxer => if attached c muxer then c else attach c muxer) L c in
  core_discoveryKey c' = core_discoveryKey c /\ core_oid c' = core_oid c /\
  (NoDup (core_attached c) -> NoDup (core_attached c')).
Proof.
  revert c. induction L as [| x L IH]; intros c; simpl; [done |].
  destruct (attach_step_keeps c x) as (Hdk & Hoid & _ & _ & Hnd).
  destruct (IH (if attached c x then c else attach c x)) as (IH1 & IH2 & IH3).
  split; [congruence |]. split; [congruence |]. auto.
Qed.

Lemma fold_attach_noop (L : list nat) (c : Core) :
  (∀ m, m ∈ L -> m ∈ core_attached c) ->
  fold_left (fun c muxer => if attached c muxer then c else attach c muxer) L c = c.
Proof.
  revert c. induction L as [| x L IH]; intros c HL; cbn [fold_left]; [done |].
  replace (attached c x) with true
    by (symmetry; apply bool_decide_eq_true; apply HL; apply elem_of_cons; by left).
  apply IH. intros m Hm. apply HL. apply elem_of_cons. by right.
Qed.

Lemma burst_core_keeps (muxer : nat) (c : Core) :
  core_discoveryKey (burst_core muxer c) = core_discoveryKey c /\
  core_oid (burst_core muxer c) = core_oid c /\
  (NoDup (core_attached c) -> NoDup (core_attached (burst_core muxer c))).
Proof.
  unfold burst_core.
  destruct (negb (core_downloading c) || attached c muxer || negb (core_opened c)) eqn:Hb;
    [done |].
  apply orb_false_iff in Hb as [Hb _]. apply orb_false_iff in Hb as [_ Ha].
  unfold attached in Ha. apply bool_decide_eq_false in Ha. simpl.
  split; [done |]. split; [done |]. intros Hnd. by apply NoDup_snoc_fresh.
Qed.

Lemma set_core_inv (id : string) (c : Core) (r : Registry) :
  reg_wf r -> attach_nodup r ->
  id = toHex (core_discoveryKey c) -> core_oid c < next_oid r -> NoDup (core_attached c) ->
  reg_wf (set_core id c r) /\ attach_nodup (set_core id c r).
Proof.
  intros Hwf Hnd Hid Hoid Hc. split.
  - intros id' c' Hl. simpl in Hl. apply lookup_insert_Some in Hl as [[<- <-] | [_ Hl]].
    + done.
    + by apply Hwf.
  - intros id' c' Hl. simpl in Hl. apply lookup_insert_Some in Hl as [[<- <-] | [_ Hl]].
    + done.
    + by eapply Hnd.
Qed.

Lemma getCore_nodup `{Sodium} `{Engine} pk ns dk opts r c r' :
  reg_wf r -> attach_nodup r -> _getCore pk ns dk opts r = Some (c, r') ->
  attach_nodup r'.
Proof.
  intros Hwf Hnd Hg.
  destruct (getCore_spec pk ns dk opts r c r' Hwf Hg)
    as (auth & _ & _ & _ & [-> | (_ & Hc & ->)]); [done |].
  intros id c0 Hl. simpl in Hl. apply lookup_insert_Some in Hl as [[_ <-] | [_ Hl]].
  - subst c. apply NoDup_nil_2.
  - by eapply Hnd.
Qed.

Lemma attachMaybe_inv `{Sodium} `{Engine} pk ns has muxer dk r :
  reg_wf r -> attach_nodup r ->
  reg_wf (_attachMaybe pk ns has muxer dk r) /\ attach_nodup (_attachMaybe pk ns has muxer dk r).
Proof.
  intros Hwf Hnd. unfold _attachMaybe.
  destruct (bool_decide _ && negb _); [done |].
  destruct (_getCore _ _ _ _ _) as [[core r1] |] eqn:Hg; [| done].
  pose proof (getCore_wf _ _ _ _ _ _ _ Hwf Hg) as Hwf1.
  pose proof (getCore_nodup _ _ _ _ _ _ _ Hwf Hnd Hg) as Hnd1.
  destruct (getCore_spec _ _ _ _ _ _ _ Hwf Hg) as (auth & Ha & Hl & Hhex & _).
  rewrite attach_opts_auth in Ha. injection Ha as <-. simpl in Hl, Hhex.
  set (core1 := if core_opened core then core else core_ready core).
  assert (H1 : core_discoveryKey core1 = core_discoveryKey core /\
               core_oid core1 = core_oid core /\ core_attached core1 = core_attached core)
    by (unfold core1; by destruct (core_opened core)).
  destruct H1 as (Hd1 & Ho1 & Ha1).
  destruct (attach_step_keeps core1 muxer) as (Hd2 & Ho2 & _ & _ & Hn2).
  apply set_core_inv; [done | done | congruence | |].
  - rewrite Ho2, Ho1. by destruct (Hwf1 _ _ Hl).
  - apply Hn2. rewrite Ha1. by eapply Hnd1.
Qed.

Lemma ondownloading_inv (id : string) (t : StreamTracker) (r : Registry) :
  reg_wf r -> attach_nodup r ->
  reg_wf (ondownloading id t r) /\ attach_nodup (ondownloading id t r).
Proof.
  intros Hwf Hnd. unfold ondownloading.
  destruct (cores r !! id) as [c |] eqn:Hl; [| done].
  destruct (fold_attach_keeps (tracked_muxers t) c) as (Hd & Ho & Hn).
  destruct (Hwf _ _ Hl) as [Hid Hlt].
  apply set_core_inv; try done.
  - unfold attachAll. by rewrite Hd.
  - unfold attachAll. by rewrite Ho.
  - apply Hn. by eapply Hnd.
Qed.

(** X5: Every replication path ([ondiscoverykey] and [_attachMaybe], the burst
    of [replicate], [ondownloading] and the engine turning downloading on)
    keeps the registry entries under the hex of their discovery keys and
    never attaches a core twice to the same muxer. *)
Theorem replication_attaches_once `{Sodium} `{Engine} (closing : bool) (pk ns : bytes)
    (has : bytes -> bool) (muxer : nat) (dk : bytes) (isExternal : bool) (id : string)
    (t : StreamTracker) (r : Registry) :
  reg_wf r -> attach_nodup r ->
  (reg_wf (ondiscoverykey closing pk ns has muxer dk r) /\
   attach_nodup (ondiscoverykey closing pk ns has muxer dk r)) /\
  (∀ r' t', Corestore_replicate closing muxer isExternal r t = Some (r', t') ->
     reg_wf r' /\ attach_nodup r') /\
  (reg_wf (ondownloading id t r) /\ attach_nodup (ondownloading id t r)) /\
  (reg_wf (set_downloading id t r) /\ attach_nodup (set_downloading id t r)).
Proof.
  intros Hwf Hnd. split; [| split; [| split]].
  - unfold ondiscoverykey. destruct closing; [done |]. by apply attachMaybe_inv.
  - intros r' t'. unfold Corestore_replicate. destruct closing; [done |].
    intros Heq. injection Heq as <- _.
    case_bool_decide; [| done]. split.
    + intros id' c Hl. simpl in Hl. rewrite lookup_fmap in Hl.
      destruct (cores r !! id') as [c0 |] eqn:Hl0; simpl in Hl; [| done].
      injection Hl as <-. destruct (burst_core_keeps muxer c0) as (Hd & Ho & _).
      rewrite Hd, Ho. by apply Hwf.
    + intros id' c Hl. simpl in Hl. rewrite lookup_fmap in Hl.
      destruct (cores r !! id') as [c0 |] eqn:Hl0; simpl in Hl; [| done].
      injection Hl as <-. destruct (burst_core_keeps muxer c0) as (_ & _ & Hn).
      apply Hn. by eapply Hnd.
  - by apply ondownloading_inv.
  - unfold set_downloading. destruct (cores r !! id) as [c |] eqn:Hl; [| done].
    apply ondownloading_inv; apply set_core_inv; try done;
      simpl; destruct (Hwf _ _ Hl); try done; by eapply Hnd.
Qed.

(** X6: [attachAll] is idempotent, and so is the [ondownloading] callback: a
    second call attaches nothing new. *)
Theorem attachAll_idempotent (t : StreamTracker) (c : Core) (id : string) (r : Registry) :
  attachAll t (attachAll t c) = attachAll t c /\
  ondownloading id t (ondownloading id t r) = ondownloading id t r.
Proof.
  assert (Hidem : ∀ c, attachAll t (attachAll t c) = attachAll t c).
  { intros c0. unfold attachAll at 1. apply fold_attach_noop.
    apply (attach_fold_spec (tracked_muxers t) c0). }
  split; [apply Hidem |].
  unfold ondownloading. destruct (cores r !! id) as [c0 |] eqn:Hl; [| by rewrite Hl].
  unfold set_core at 2. simpl. rewrite lookup_insert_eq, Hidem.
  unfold set_core. simpl. by rewrite insert_insert_eq.
Qed.

(** X7: A second [ondiscoverykey] for the same key on the same stream changes
    nothing: the core is already opened and attached. *)
Theorem ondiscoverykey_idempotent `{Sodium} `{Engine} (closing : bool) (pk ns : bytes)
    (has : bytes -> bool) (muxer : nat) (dk : bytes) (r : Registry) :
  let f := ondiscoverykey closing pk ns has muxer dk in
  f (f r) = f r.
Proof.
  intros f. unfold f, ondiscoverykey. destruct closing; [done |].
  unfold _attachMaybe at 2.
  destruct (bool_decide (cores r !! toHex dk = None) && negb (has dk)) eqn:Hgate.
  { unfold _attachMaybe. by rewrite Hgate. }
  destruct (_getCore pk ns (Some dk) (mkGetOpts None None None None None (Some false)) r)
    as [[core r1] |] eqn:Hg.
  2: { unfold _attachMaybe. by rewrite Hgate, Hg. }
  set (core1 := if core_opened core then core else core_ready core).
  set (core2 := if attached core1 muxer then core1 else attach core1 muxer).
  assert (Hop : core_opened core2 = true).
  { destruct (attach_step_keeps core1 muxer) as (_ & _ & Ho & _).
    unfold core2. rewrite Ho. unfold core1. by destruct (core_opened core) eqn:?. }
  assert (Hat : attached core2 muxer = true).
  { destruct (attach_step_keeps core1 muxer) as (_ & _ & _ & Hm & _).
    unfold attached. by apply bool_decide_eq_true. }
  assert (Hr1 : _attachMaybe pk ns has muxer dk r = set_core (toHex dk) core2 r1)
    by (unfold _attachMaybe; rewrite Hgate, Hg; reflexivity).
  rewrite Hr1.
  assert (Hl2 : cores (set_core (toHex dk) core2 r1) !! toHex dk = Some core2)
    by (simpl; apply lookup_insert_eq).
  assert (Hg2 : _getCore pk ns (Some dk) (mkGetOpts None None None None None (Some false))
                  (set_core (toHex dk) core2 r1) = Some (core2, set_core (toHex dk) core2 r1))
    by (unfold _getCore; rewrite attach_opts_auth; simpl a_discoveryKey; by rewrite Hl2).
  unfold _attachMaybe at 1. rewrite Hl2, Hg2.
  rewrite bool_decide_false by done. simpl.
  rewrite Hop, Hat. unfold set_core. simpl. by rewrite insert_insert_eq.
Qed.

Lemma replication_attaches_once_witness :
  let r := mkRegistry {[ "01"%string := mkCore 0 [x01] None None None None None true false true [] ]} 1 in
  reg_wf (ondiscoverykey false [] [] (fun _ => true) 7 [x01] r) /\
  attach_nodup (ondiscoverykey false [] [] (fun _ => true) 7 [x01] r) /\
  option_map core_attached
    (cores (ondiscoverykey false [] [] (fun _ => true) 7 [x01] r) !! "01"%string) = Some [7].
Proof.
  intros r.
  assert (Hnd : attach_nodup r).
  { intros id c Hl. simpl in Hl. apply lookup_singleton_Some in Hl as [_ <-]. apply NoDup_nil_2. }
  destruct (replication_attaches_once false [] [] (fun _ => true) 7 [x01] false "01"
              empty_tracker r sample_registry_wf Hnd) as ([H1 H2] & _).
  split; [exact H1 |]. split; [exact H2 |]. reflexivity.
Defined.

(** ** Identity resolution and opening *)

(** X8: given a stored discovery key, [_auth] throws exactly when it has a
    [key] option that [ID.decode] rejects (the key is decoded before the
    stored discovery key is returned); otherwise it returns the stored
    discovery key, and the [discoveryKey] option is never read. *)
Theorem auth_stored_discovery_key `{Sodium} `{Engine} (pk ns d : bytes) (opts : GetOpts) :
  (_auth pk ns (Some d) opts = None <-> ∃ k, o_key opts = Some k /\ id_decode k = None) /\
  (∀ a, _auth pk ns (Some d) opts = Some a -> a_discoveryKey a = d) /\
  (∀ d', _auth pk ns (Some d)
           (mkGetOpts (o_name opts) (o_keyPair opts) (o_manifest opts) (o_key opts) d'
              (o_createIfMissing opts))
         = _auth pk ns (Some d) opts).
Proof.
  destruct opts as [n kp m k e cim]. unfold _auth; cbn [o_name o_keyPair o_manifest o_key o_discoveryKey o_createIfMissing].
  destruct k as [k |]; try destruct (id_decode k) as [k' |] eqn:Hk;
    (split; [split; [intros Hn; try discriminate | intros (k0 & Hk0 & Hd0)] | split]);
    try (intros a Ha; injection Ha as <-; reflexivity); try reflexivity;
    try (intros a Ha; discriminate); simplify_eq; eauto.
Qed.

(** X9: [get] with a truthy [name] whose alias is in storage throws when
    its [key] option is one [ID.decode] rejects.  Otherwise it resolves to
    the stored discovery key, whatever its [discoveryKey] option says, and
    does not throw; a core it creates carries the key pair derived from the
    name, only the manifest given in the options (none is built) and the
    alias [(name, ns)]. *)
Theorem get_by_alias `{Sodium} `{Engine} (ctx : StoreCtx) (opts : GetOpts) (n : Name)
    (d : bytes) (r : Registry) :
  reg_wf r -> sc_closing ctx = false ->
  name_truthy (o_name opts) = Some n -> sc_getAlias ctx n (sc_ns ctx) = Some d ->
  (∀ k, o_key opts = Some k -> id_decode k = None -> Corestore_get ctx opts r = None) /\
  ((∀ k, o_key opts = Some k -> is_Some (id_decode k)) ->
   ∃ c r', Corestore_get ctx opts r = Some (c, r') /\
     core_discoveryKey c = d /\
     (cores r !! toHex d = None ->
        core_keyPair c = Some (createKeyPair (sc_primaryKey ctx) (sc_ns ctx) n) /\
        core_manifest c = o_manifest opts /\
        core_alias c = Some (n, sc_ns ctx))).
Proof.
  intros Hwf Hcl Hn Hd. unfold Corestore_get. rewrite Hcl, Hn, Hd. split.
  { intros k Hk Hdec. unfold _getCore, _auth. by rewrite Hk, Hdec. }
  intros Hdec.
  assert (Ha : ∃ key, _auth (sc_primaryKey ctx) (sc_ns ctx) (Some d) opts =
               Some (mkAuth (Some (createKeyPair (sc_primaryKey ctx) (sc_ns ctx) n))
                       key d (o_manifest opts))).
  { unfold _auth. rewrite Hn. destruct (o_key opts) as [k |] eqn:Hk.
    - destruct (Hdec k eq_refl) as [k' Hk']. rewrite Hk'.
      by destruct (o_manifest opts); eexists.
    - by destruct (o_manifest opts); eexists. }
  destruct Ha as [key Ha].
  unfold _getCore. rewrite Ha. simpl.
  destruct (cores r !! toHex d) as [ex |] eqn:Hl.
  - eexists _, _. split; [reflexivity |]. split.
    + destruct (Hwf _ _ Hl) as [Hid _]. symmetry. by apply toHex_inj.
    + done.
  - eexists _, _. split; [reflexivity |]. simpl. split; [done |].
    intros _. split; [done |]. split; [done |]. unfold name_truthy in Hn |- *.
    by rewrite Hn.
Qed.

(** X10: Opening a root store on empty storage writes the supplied primary key,
    or else the random one, and a later open of the same storage, with no
    key or with that key, adopts the written seed. *)
Theorem open_roundtrip (primaryKey : option bytes) (random random' : bytes) :
  let k := default random primaryKey in
  Corestore_open_root None primaryKey random = (inr k, Some k) /\
  Corestore_open_root (Some k) None random' = (inr k, Some k) /\
  Corestore_open_root (Some k) (Some k) random' = (inr k, Some k).
Proof.
  intros k. unfold Corestore_open_root, _getOrSetSeed. simpl.
  rewrite decide_True by done. split; [| done].
  destruct primaryKey as [pk |]; simpl; [| done].
  by rewrite decide_True.
Qed.

Lemma get_by_alias_witness :
  let ctx := mkStoreCtx [] [] false (fun _ _ => Some [x05]) in
  let opts := mkGetOpts (Some (NameStr "a")) None None (Some [x09]) (Some []) None in
  let reg := mkRegistry {[ "01"%string := mkCore 0 [x01] None None None None None true false true [] ]} 1 in
  (∃ c r', Corestore_get ctx opts reg = Some (c, r') /\ core_discoveryKey c = [x05] /\
           core_manifest c = None) /\
  Corestore_get ctx (mkGetOpts (Some (NameStr "a")) None None (Some []) None None) reg = None.
Proof.
  intros ctx opts reg. split.
  - destruct (proj2 (get_by_alias ctx opts (NameStr "a") [x05] reg sample_registry_wf
                       eq_refl eq_refl eq_refl))
      as (c & r' & Hg & Hd & Hnew).
    { intros k Hk. injection Hk as <-. by eexists. }
    exists c, r'. split; [exact Hg |]. split; [exact Hd |].
    by destruct (Hnew eq_refl) as (_ & -> & _).
  - exact (proj1 (get_by_alias ctx (mkGetOpts (Some (NameStr "a")) None None (Some []) None None)
                    (NameStr "a") [x05] reg sample_registry_wf eq_refl eq_refl eq_refl)
             [] eq_refl eq_refl).
Defined.

(** ** The stream tracker *)

Lemma st_add_wf (muxer : nat) (ext : bool) (t : StreamTracker) :
  tracker_wf t -> tracker_wf (snd (st_add muxer ext t)).
Proof.
  intros Hwf ref Hin. unfold st_add in *. simpl in *.
  apply elem_of_app in Hin as [Hin | Hin].
  - destruct (Hwf ref Hin) as [Hlt (m & e & Hl)]. split; [lia |].
    exists m, e. rewrite lookup_insert_ne by lia. done.
  - apply list_elem_of_singleton in Hin as ->. split; [lia |].
    eexists _, _. apply lookup_insert_eq.
Qed.

(** X11: [add] and [remove] keep every tracked record in the heap with
    [index] 0.  So [remove] of a tracked record pops the last record and,
    unless that was the removed one, writes it into slot 0, whichever
    record was removed; the records themselves are not changed. *)
Theorem stream_tracker_remove_slot0 (t : StreamTracker) (record muxer : nat) (ext : bool) :
  tracker_wf t ->
  tracker_wf (snd (st_add muxer ext t)) /\
  (record ∈ records t ->
   ∃ t', st_remove record t = Some t' /\ tracker_wf t' /\ heap t' = heap t /\
     ∀ l p, records t = l ++ [p] ->
       records t' = if Nat.eqb p record then l else <[0 := p]> l).
Proof.
  intros Hwf. split; [by apply st_add_wf |]. intros Hin.
  pose proof (Hwf record Hin) as [_ (mr & er & Hrec)].
  unfold st_remove.
  destruct (records t) as [| p l _] eqn:Hr using rev_ind; [by apply elem_of_nil in Hin |].
  rewrite js_pop_snoc.
  destruct (Nat.eqb_spec p record) as [<- | Hne].
  - eexists. split; [reflexivity |]. simpl. split; [| split; [done |]].
    + intros ref Href. apply Hwf. rewrite Hr. apply elem_of_app. by left.
    + intros l' p' Heq. apply app_inj_tail in Heq as [<- <-]. by rewrite Nat.eqb_refl.
  - assert (Hinl : record ∈ l).
    { apply elem_of_app in Hin as [? | Hp]; [done |].
      apply list_elem_of_singleton in Hp. congruence. }
    assert (Hp : p ∈ records t) by (rewrite Hr; apply elem_of_app; right; by apply list_elem_of_singleton).
    destruct (Hwf p Hp) as [_ (mp & ep & Hpl)].
    rewrite Hrec, Hpl. simpl. unfold array_set.
    assert (Hlen : 0 < length l) by (destruct l; [by apply elem_of_nil in Hinl | simpl; lia]).
    replace ((0 <=? 0)%Z && (0 <? Z.of_nat (length l))%Z) with true
      by (symmetry; apply andb_true_iff; split; [apply Z.leb_le | apply Z.ltb_lt]; lia).
    change (Z.to_nat 0) with 0. rewrite insert_id by done.
    eexists. split; [reflexivity |]. simpl. split; [| split; [done |]].
    + intros ref Href. simpl in Href. apply list_elem_of_lookup in Href as [j Hj].
      destruct (decide (j = 0)) as [-> | Hj0].
      * rewrite list_lookup_insert_eq in Hj by done. injection Hj as <-. by apply Hwf.
      * rewrite list_lookup_insert_ne in Hj by done. apply Hwf. rewrite Hr.
        apply elem_of_app. left. by eapply list_elem_of_lookup_2.
    + intros l' p' Heq. apply app_inj_tail in Heq as [<- <-].
      by destruct (Nat.eqb_spec p record).
Qed.

(** X12: [remove] of the record [add] just returned restores the records, and
    [remove] on a tracker without records throws. *)
Theorem stream_tracker_add_remove (muxer : nat) (ext : bool) (t : StreamTracker) (record : nat) :
  option_map records (st_remove (fst (st_add muxer ext t)) (snd (st_add muxer ext t)))
    = Some (records t) /\
  (records t = [] -> st_remove record t = None).
Proof.
  split.
  - unfold st_add, st_remove. simpl. rewrite js_pop_snoc. by rewrite Nat.eqb_refl.
  - intros Hr. unfold st_remove. by rewrite Hr.
Qed.

Lemma destroy_fold (h : gmap nat StreamRecord) (L acc : list nat) :
  (∀ ref, ref ∈ L -> is_Some (h !! ref)) ->
  fold_left (fun acc ref =>
      acc ≫= fun destroyed =>
      r ← h !! ref;
      Some (if rec_external r then destroyed else destroyed ++ [ref])) L (Some acc)
  = Some (acc ++ filter (fun ref => rec_external <$> h !! ref = Some false) L).
Proof.
  revert acc. induction L as [| x L IH]; intros acc HL; simpl.
  - by rewrite app_nil_r.
  - destruct (HL x ltac:(apply elem_of_cons; by left)) as [r Hx].
    rewrite Hx. simpl. rewrite filter_cons. rewrite Hx. simpl.
    assert (HL' : ∀ ref, ref ∈ L -> is_Some (h !! ref))
      by (intros ref Hr; apply HL; apply elem_of_cons; by right).
    destruct (rec_external r); simpl.
    + try (rewrite decide_False by done). by apply IH.
    + try (rewrite decide_True by done). rewrite IH by done. by rewrite <- app_assoc.
Qed.

(** X13: [destroy] calls [stream.destroy()] on exactly the tracked streams that
    are not external, from the last record to the first. *)
Theorem stream_tracker_destroy (t : StreamTracker) :
  tracker_wf t ->
  StreamTracker_destroy t =
    Some (filter (fun ref => rec_external <$> heap t !! ref = Some false) (rev (records t))) /\
  (∀ ref destroyed, StreamTracker_destroy t = Some destroyed ->
     ref ∈ destroyed <-> ref ∈ records t /\ ∃ m, heap t !! ref = Some (mkRecord 0 m false)).
Proof.
  intros Hwf.
  assert (Hd : StreamTracker_destroy t =
    Some (filter (fun ref => rec_external <$> heap t !! ref = Some false) (rev (records t)))).
  { unfold StreamTracker_destroy. rewrite destroy_fold; [done |].
    intros ref Href. apply list_elem_of_In, in_rev, list_elem_of_In in Href.
    destruct (Hwf ref Href) as [_ (m & e & ->)]. done. }
  split; [done |]. intros ref destroyed. rewrite Hd. intros [= <-].
  rewrite list_elem_of_filter. split.
  - intros [Hext Href]. apply list_elem_of_In, in_rev, list_elem_of_In in Href.
    split; [done |]. destruct (Hwf ref Href) as [_ (m & e & Hl)].
    rewrite Hl in Hext. simpl in Hext. injection Hext as ->. by exists m.
  - intros [Href [m Hl]]. rewrite Hl. split; [done |].
    apply list_elem_of_In, in_rev, list_elem_of_In. by rewrite rev_involutive.
Qed.

Lemma sample_tracker_wf :
  tracker_wf (snd (st_add 3 true (snd (st_add 2 false (snd (st_add 1 false empty_tracker)))))).
Proof.
  apply st_add_wf, st_add_wf, st_add_wf.
  intros ref Href. by apply elem_of_nil in Href.
Qed.

Lemma stream_tracker_remove_slot0_witness :
  let t := snd (st_add 3 true (snd (st_add 2 false (snd (st_add 1 false empty_tracker))))) in
  records t = [0; 1; 2] /\ option_map records (st_remove 0 t) = Some [2; 1].
Proof.
  intros t. split; [reflexivity |].
  destruct (stream_tracker_remove_slot0 t 0 4 false sample_tracker_wf) as [_ Hrm].
  destruct (Hrm ltac:(vm_compute; left)) as (t' & Ht & _ & _ & Hrec).
  rewrite Ht. simpl. f_equal. rewrite (Hrec [0; 1] 2 eq_refl). reflexivity.
Defined.

Lemma stream_tracker_destroy_witness :
  let t := snd (st_add 3 true (snd (st_add 2 false (snd (st_add 1 false empty_tracker))))) in
  StreamTracker_destroy t = Some [1; 0].
Proof.
  intros t. destruct (stream_tracker_destroy t sample_tracker_wf) as [Hd _].
  rewrite Hd. vm_compute. reflexivity.
Defined.

(** ** Sessions, watchers and stores *)

(** X14: [SessionTracker.get] never replaces an existing array; on a new id it
    registers an empty array, and when that array is still empty [_ongc]
    removes the entry again, leaving the map as it was. *)
Theorem session_tracker_get_gc (id : string) (m : SessionMap) :
  (∀ l, m !! id = Some l -> SessionTracker_get id m = (l, m)) /\
  (m !! id = None ->
     fst (SessionTracker_get id m) = [] /\
     snd (SessionTracker_get id m) !! id = Some [] /\
     Corestore_ongc id (fst (SessionTracker_get id m)) (snd (SessionTracker_get id m)) = m).
Proof.
  split.
  - intros l Hl. unfold SessionTracker_get. by rewrite Hl.
  - intros Hn. unfold SessionTracker_get. rewrite Hn. simpl.
    split; [done |]. split; [apply lookup_insert_eq |].
    unfold Corestore_ongc, SessionTracker_gc. unfold SessionMap in *. by apply delete_insert_id.
Qed.

Lemma emit_fold (w : nat -> option (list nat)) (L acc : list nat) :
  (∀ x, x ∈ L -> is_Some (w x)) ->
  fold_left (fun acc store => acc ≫= fun calls => (fun l => calls ++ l) <$> w store)
    L (Some acc)
  = Some (acc ++ concat (map (fun x => default [] (w x)) L)).
Proof.
  revert acc. induction L as [| x L IH]; intros acc HL; simpl.
  - by rewrite app_nil_r.
  - destruct (HL x ltac:(apply elem_of_cons; by left)) as [l Hx]. rewrite Hx. simpl.
    rewrite IH by (intros y Hy; apply HL; apply elem_of_cons; by right).
    by rewrite app_assoc.
Qed.

Lemma emit_spec (s : WatchState) :
  emit_wf s ->
  CoreTracker_emit s = Some (concat (map (fun x => default [] (watchers s x)) (rev (watching s)))).
Proof.
  intros Hwf. unfold CoreTracker_emit. rewrite emit_fold; [done |].
  intros x Hx. apply Hwf. by apply list_elem_of_In, in_rev, list_elem_of_In.
Qed.

(** X15: [_emit] never throws: [Corestore.watch] and [unwatch] keep a
    [watchers] set on every registered store.  [_emit] goes through the
    stores from the last registered to the first, so the callback of a
    store that just started watching is called first, before every
    callback that was called before; [set] calls them only when some store
    is watching. *)
Theorem emit_newest_first (s : WatchState) (st fn : nat) (id : string) (c : Core)
    (m : gmap string Core) :
  watch_inv s -> emit_wf s ->
  emit_wf (Corestore_watch st fn s) /\
  (∀ s', Corestore_unwatch st fn s = Some s' -> emit_wf s') /\
  (∃ calls, CoreTracker_emit s = Some calls /\
     CoreTracker_set id c m s = Some (<[id := c]> m, if bool_decide (watching s = []) then [] else calls)) /\
  (watchers s st = None ->
     ∃ calls, CoreTracker_emit s = Some calls /\
              CoreTracker_emit (Corestore_watch st fn s) = Some (fn :: calls)).
Proof.
  intros Hinv Hwf.
  assert (Hnew : watchers s st = None ->
     let s' := Corestore_watch st fn s in
     watching s' = watching s ++ [st] /\ watchers s' st = Some [fn] /\
     (∀ x, x ≠ st -> watchers s' x = watchers s x)).
  { intros Hn. assert (Hnot : st ∉ watching s)
      by (intros Hin; destruct (Hwf st Hin) as [? Hs]; congruence).
    set (s0 := mkWS (watching s) (watchIndex s) (upd (watchers s) st (Some []))).
    assert (Hinv0 : watch_inv s0) by exact Hinv.
    destruct (CoreTracker_watch_spec s0 st Hinv0) as (_ & _ & Hw & Hws).
    unfold Corestore_watch. rewrite Hn. simpl. fold s0. rewrite (Hw Hnot).
    split; [done |]. split; [apply upd_eq |].
    intros x Hx. rewrite upd_ne by done. rewrite Hws. simpl. by rewrite upd_ne. }
  split; [| split; [| split]].
  - destruct (watchers s st) as [w |] eqn:Hst.
    + intros x Hx. unfold Corestore_watch in *. rewrite Hst in Hx |- *. simpl in *.
      destruct (decide (x = st)) as [-> | Hxs]; [by rewrite upd_eq |].
      rewrite upd_ne by done. by apply Hwf.
    + destruct (Hnew eq_refl) as (Hw & Hst' & Hoth). intros x Hx. rewrite Hw in Hx.
      destruct (decide (x = st)) as [-> | Hxs]; [by rewrite Hst' |].
      rewrite Hoth by done. apply Hwf. apply elem_of_app in Hx as [? | Hx]; [done |].
      by apply list_elem_of_singleton in Hx.
  - intros s'. unfold Corestore_unwatch.
    destruct (watchers s st) as [w |] eqn:Hst; [| by intros [= <-]].
    case_bool_decide.
    + set (s0 := mkWS (watching s) (watchIndex s) (upd (watchers s) st None)).
      assert (Hinv0 : watch_inv s0) by exact Hinv.
      intros Hu. destruct (CoreTracker_unwatch_spec s0 st Hinv0)
        as (s'' & Hu' & _ & Hnot & Hws & _).
      rewrite Hu in Hu'. injection Hu' as <-.
      intros x Hx. assert (Hxs : x ≠ st) by (intros ->; done).
      rewrite Hws. simpl. rewrite upd_ne by done. apply Hwf.
      by apply (CoreTracker_unwatch_members s0 s' st Hinv0 Hu x Hxs).
    + intros [= <-]. intros x Hx. simpl in *.
      destruct (decide (x = st)) as [-> | Hxs]; [by rewrite upd_eq |].
      rewrite upd_ne by done. by apply Hwf.
  - rewrite emit_spec by done. eexists. split; [done |].
    unfold CoreTracker_set. rewrite emit_spec by done.
    destruct (watching s) eqn:Hw; simpl; [done |].
    try (rewrite bool_decide_true by lia); try (rewrite bool_decide_false by done); done.
  - intros Hn. destruct (Hnew Hn) as (Hw & Hst' & Hoth).
    assert (Hnot : st ∉ watching s)
      by (intros Hin; destruct (Hwf st Hin) as [? Hs]; congruence).
    eexists. split; [by apply emit_spec |].
    unfold CoreTracker_emit. rewrite Hw, rev_app_distr. simpl. rewrite Hst'. simpl.
    rewrite emit_fold.
    + simpl. f_equal. f_equal. f_equal. apply map_ext_in. intros x Hx.
      rewrite Hoth; [done |]. intros ->. apply Hnot.
      apply list_elem_of_In. rewrite (in_rev (watching s)). exact Hx.
    + intros x Hx. rewrite Hoth.
      * apply Hwf. by apply list_elem_of_In, in_rev, list_elem_of_In in Hx.
      * intros ->. apply Hnot. by apply list_elem_of_In, in_rev, list_elem_of_In in Hx.
Qed.

(** X16: [_close] takes the store off the tracker but keeps its [watchers]
    set, so a later [watch (fn)] on the closed store adds the callback to
    that set without registering the store again. *)
Theorem close_keeps_watchers (s s' : WatchState) (st fn : nat) (w : list nat) :
  watch_inv s -> watchers s st = Some w -> close_unwatch st s = Some s' ->
  (st ∉ watching s') /\ watchers s' st = Some w /\
  (st ∉ watching (Corestore_watch st fn s')) /\
  watchers (Corestore_watch st fn s') st = Some (set_add fn w).
Proof.
  intros Hinv Hw Hc. unfold close_unwatch in Hc. rewrite Hw in Hc.
  destruct (CoreTracker_unwatch_spec s st Hinv) as (s'' & Hu & _ & Hnot & Hws & _).
  rewrite Hc in Hu. injection Hu as <-.
  assert (Hw' : watchers s' st = Some w) by (by rewrite Hws).
  split; [done |]. split; [done |].
  unfold Corestore_watch. rewrite Hw'. simpl. split; [done |]. apply upd_eq.
Qed.

Lemma stores_wf_lt (w : Stores) (id : nat) (me : StoreNode) :
  stores_wf w -> stores w !! id = Some me -> id < next_store w.
Proof. intros Hwf Hl. by destruct (Hwf id me Hl). Qed.

(** X17: [session] hangs the new store under [this.root || this]: every store
    has a root store as its root, never a chain, and the new store gets
    [DEFAULT_NAMESPACE] unless a namespace is passed.  The new store is
    added last to the root's [corestores] set, which every store under that
    root shares; no other store object and no other root's set changes. *)
Theorem session_flat_roots (self : nat) (ns : option bytes) (w : Stores) :
  stores_wf w ->
  ∀ id w', Corestore_session self ns w = Some (id, w') ->
  stores_wf w' /\
  ∃ me root rn, stores w !! self = Some me /\ root = default self (sn_root me) /\
    stores w' !! id = Some (mkStoreNode (Some root) (default DEFAULT_NAMESPACE ns) false) /\
    stores w' !! root = Some rn /\ sn_root rn = None /\
    stores w !! id = None /\
    (∀ x, x ≠ id -> stores w' !! x = stores w !! x) /\
    corestores w' !! root = Some (default [] (corestores w !! root) ++ [id]) /\
    (∀ x, x ≠ root -> corestores w' !! x = corestores w !! x).
Proof.
  intros Hwf id w'. unfold Corestore_session.
  destruct (stores w !! self) as [me |] eqn:Hme; [| done]. simpl.
  destruct (_maybeClosed self w); [done |]. intros [= <- <-].
  assert (Hfresh : stores w !! next_store w = None).
  { destruct (stores w !! next_store w) eqn:Hl; [| done].
    apply (stores_wf_lt w) in Hl; [lia | done]. }
  assert (Hroot : ∃ rn, stores w !! default self (sn_root me) = Some rn /\ sn_root rn = None).
  { destruct (sn_root me) as [r0 |] eqn:Hr; simpl.
    - destruct (Hwf self me Hme) as [_ Hrt]. by apply Hrt.
    - by exists me. }
  destruct Hroot as (rn & Hrn & Hrnr).
  assert (Hne : default self (sn_root me) ≠ next_store w)
    by (intros Heq; rewrite Heq in Hrn; congruence).
  split.
  - intros x mx Hx. simpl in Hx. apply lookup_insert_Some in Hx as [[<- <-] | [Hxn Hx]].
    + simpl. split; [lia |]. intros root [= <-]. exists rn.
      rewrite lookup_insert_ne by done. done.
    + destruct (Hwf x mx Hx) as [Hlt Hrt]. simpl. split; [lia |].
      intros root Hr. destruct (Hrt root Hr) as (r & Hr1 & Hr2). exists r.
      rewrite lookup_insert_ne; [done |].
      intros Heq. subst root. congruence.
  - exists me, (default self (sn_root me)), rn. simpl.
    split; [done |]. split; [done |]. split; [apply lookup_insert_eq |].
    split; [by rewrite lookup_insert_ne |]. split; [done |]. split; [done |].
    split; [intros x Hx; by rewrite lookup_insert_ne |].
    split; [apply lookup_insert_eq |].
    intros x Hx. by rewrite lookup_insert_ne.
Qed.

(** X18: [namespace (name)] derives the new store's namespace from the calling
    store's with [generateNamespace], so namespaces chain; [session ()]
    without a namespace option does not inherit one. *)
Theorem namespace_chain `{Sodium} (self : nat) (a b : Name) (w : Stores) :
  (∀ id w', Corestore_namespace self a w = Some (id, w') ->
     ∃ me, stores w !! self = Some me /\
       sn_ns <$> stores w' !! id = Some (generateNamespace (sn_ns me) a)) /\
  (∀ id1 w1 id2 w2, Corestore_namespace self a w = Some (id1, w1) ->
     Corestore_namespace id1 b w1 = Some (id2, w2) ->
     ∃ me, stores w !! self = Some me /\
       sn_ns <$> stores w2 !! id2 = Some (generateNamespace (generateNamespace (sn_ns me) a) b)) /\
  (∀ id w', Corestore_session self None w = Some (id, w') ->
     sn_ns <$> stores w' !! id = Some DEFAULT_NAMESPACE).
Proof.
  assert (Hs : ∀ self' ns w0 id w', Corestore_session self' ns w0 = Some (id, w') ->
             stores w' !! id = Some (mkStoreNode (Some (default self' (default None
                (sn_root <$> stores w0 !! self')))) (default DEFAULT_NAMESPACE ns) false)).
  { intros self' ns w0 id w'. unfold Corestore_session.
    destruct (stores w0 !! self') as [me |]; [| done]. simpl.
    destruct (_maybeClosed self' w0); [done |]. intros [= <- <-].
    apply lookup_insert_eq. }
  assert (Hn : ∀ self' n w0 id w', Corestore_namespace self' n w0 = Some (id, w') ->
     ∃ me, stores w0 !! self' = Some me /\
       sn_ns <$> stores w' !! id = Some (generateNamespace (sn_ns me) n)).
  { intros self' n w0 id w'. unfold Corestore_namespace.
    destruct (stores w0 !! self') as [me |] eqn:Hme; [| done]. simpl.
    intros Hc. exists me. split; [done |]. by rewrite (Hs _ _ _ _ _ Hc). }
  split; [apply Hn |]. split.
  - intros id1 w1 id2 w2 H1 H2.
    destruct (Hn _ _ _ _ _ H1) as (me & Hme & Hns1).
    destruct (Hn _ _ _ _ _ H2) as (me1 & Hme1 & Hns2).
    exists me. split; [done |]. rewrite Hns2. rewrite Hme1 in Hns1.
    simpl in Hns1. by injection Hns1 as ->.
  - intros id w' Hc. by rewrite (Hs _ _ _ _ _ Hc).
Qed.

(** X19: Once a root store is closing, [session] and [namespace] throw on it
    and on every store under it. *)
Theorem closing_root_blocks `{Sodium} (w : Stores) (root self : nat) (rn me : StoreNode)
    (ns : option bytes) (name : Name) :
  stores w !! root = Some rn -> sn_closing rn = true ->
  stores w !! self = Some me -> (self = root \/ sn_root me = Some root) ->
  Corestore_session self ns w = None /\ Corestore_namespace self name w = None.
Proof.
  intros Hr Hc Hs Hrel.
  assert (Hm : _maybeClosed self w = true).
  { unfold _maybeClosed. rewrite Hs. destruct Hrel as [-> | ->].
    - rewrite Hs in Hr. injection Hr as ->. by rewrite Hc.
    - rewrite Hr. simpl. rewrite Hc. apply orb_true_r. }
  assert (Hsess : ∀ ns', Corestore_session self ns' w = None)
    by (intros ns'; unfold Corestore_session; rewrite Hs; simpl; by rewrite Hm).
  split; [apply Hsess |]. unfold Corestore_namespace. rewrite Hs. simpl. apply Hsess.
Qed.

Lemma sample_watch_state_inv :
  let s := mkWS [3; 5]
             (fun x => match x with 3 => 0%Z | 5 => 1%Z | _ => (-1)%Z end)
             (fun x => match x with 3 => Some [1] | 5 => Some [2] | _ => None end) in
  watch_inv s /\ emit_wf s.
Proof.
  intros s. split; [split |].
  - intros i x Hx. destruct i as [| [| i]]; simpl in Hx; simplify_eq; done.
  - intros x Hx. destruct x as [| [| [| [| [| [| x]]]]]]; try done;
      exfalso; apply Hx; simpl; set_solver.
  - intros x Hx. apply elem_of_cons in Hx as [-> | Hx]; [done |].
    apply list_elem_of_singleton in Hx as ->. done.
Qed.

Lemma emit_newest_first_witness :
  let s := mkWS [3; 5]
             (fun x => match x with 3 => 0%Z | 5 => 1%Z | _ => (-1)%Z end)
             (fun x => match x with 3 => Some [1] | 5 => Some [2] | _ => None end) in
  CoreTracker_emit s = Some [2; 1] /\ CoreTracker_emit (Corestore_watch 8 9 s) = Some [9; 2; 1].
Proof.
  intros s. destruct sample_watch_state_inv as [Hinv Hwf].
  destruct (emit_newest_first s 8 9 "" (mkCore 0 [] None None None None None false false false [])
              ∅ Hinv Hwf) as (_ & _ & _ & Hfirst).
  destruct (Hfirst eq_refl) as (calls & H1 & H2).
  assert (Hc : calls = [2; 1]) by (vm_compute in H1; congruence).
  rewrite H1, H2, Hc. split; reflexivity.
Defined.

Lemma close_keeps_watchers_witness :
  let s := mkWS [3; 5]
             (fun x => match x with 3 => 0%Z | 5 => 1%Z | _ => (-1)%Z end)
             (fun x => match x with 3 => Some [1] | 5 => Some [2] | _ => None end) in
  ∃ s', close_unwatch 3 s = Some s' /\ watching s' = [5] /\
    (3 ∉ watching (Corestore_watch 3 7 s')) /\ watchers (Corestore_watch 3 7 s') 3 = Some [1; 7].
Proof.
  intros s. destruct sample_watch_state_inv as [Hinv _].
  destruct (close_unwatch 3 s) as [s' |] eqn:Hc; [| vm_compute in Hc; discriminate].
  destruct (close_keeps_watchers s s' 3 7 [1] Hinv eq_refl Hc) as (_ & _ & H3 & H4).
  exists s'. split; [done |]. split; [vm_compute in Hc; injection Hc as <-; reflexivity |].
  split; [exact H3 |]. rewrite H4. reflexivity.
Defined.

Lemma sample_stores_wf (closing : bool) :
  stores_wf (mkStores (<[0 := mkStoreNode None DEFAULT_NAMESPACE closing]>
                         {[ 1 := mkStoreNode (Some 0) [x07] false ]}) 2 {[ 0 := [1] ]}).
Proof.
  intros id me Hl. simpl in Hl.
  apply lookup_insert_Some in Hl as [[<- <-] | [_ Hl]].
  - split; [simpl; lia | done].
  - apply lookup_singleton_Some in Hl as [<- <-]. split; [simpl; lia |].
    intros root [= <-]. eexists. split; [reflexivity | done].
Qed.

Lemma session_flat_roots_witness :
  let w := mkStores (<[0 := mkStoreNode None DEFAULT_NAMESPACE false]>
                       {[ 1 := mkStoreNode (Some 0) [x07] false ]}) 2 {[ 0 := [1] ]} in
  ∃ w', Corestore_session 1 None w = Some (2, w') /\ stores_wf w' /\
    stores w' !! 2 = Some (mkStoreNode (Some 0) DEFAULT_NAMESPACE false) /\
    corestores w' !! 0 = Some [1; 2].
Proof.
  intros w.
  destruct (Corestore_session 1 None w) as [[id w'] |] eqn:Hs; [| vm_compute in Hs; discriminate].
  destruct (session_flat_roots 1 None w (sample_stores_wf false) id w' Hs)
    as (Hwf' & me & root & rn & Hme & Hroot & Hid & _ & _ & _ & _ & Hset & _).
  assert (id = 2) as -> by (vm_compute in Hs; congruence).
  vm_compute in Hme. injection Hme as <-. cbn in Hroot. subst root.
  exists w'. split; [done |]. split; [exact Hwf' |].
  split; [by rewrite Hid |]. rewrite Hset. reflexivity.
Defined.

Lemma closing_root_blocks_witness :
  let w := mkStores (<[0 := mkStoreNode None DEFAULT_NAMESPACE true]>
                       {[ 1 := mkStoreNode (Some 0) [x07] false ]}) 2 {[ 0 := [1] ]} in
  Corestore_session 1 None w = None /\ Corestore_namespace 1 (NameStr "a") w = None.
Proof.
  intros w.
  exact (closing_root_blocks w 0 1 _ _ None (NameStr "a") eq_refl eq_refl eq_refl (or_intror eq_refl)).
Defined.
